(** * SSP Bayesian-optimisation agent: a shallow embedding of
      [ssp_bayes_opt/agent.py] and the properties of its three entry points.

    Conventions of the embedding.

    - A numpy [float64] is idealised as a real number ([R]).  Rounding,
      infinities and NaN are outside the model, except where they decide
      an integer or the control flow: the count that line 32 takes from a
      float square root is computed with the float64 rounding of the
      quotient and of the root written out ([float64]), and the NaN and
      the overflow it can meet there are errors.
    - A Python exception is [None] in the [option] monad: the call is
      abandoned and the exception reaches the caller.
    - [print] has no effect on the state and is omitted.
    - The modules [ssp] and [blr], numpy's random generator, [pinv] and
      scipy's [minimize] are collaborators of the agent; they are the fields
      of the class [Externals] and every result below holds for each
      implementation of them. *)

From Stdlib Require Import String Reals Lra Lia ZArith Bool List.
Import ListNotations.

Local Open Scope R_scope.

(** ** Exceptions *)

Definition obind {A B : Type} (m : option A) (k : A -> option B) : option B :=
  match m with
  | Some a => k a
  | None => None
  end.

Declare Scope py_scope.
Delimit Scope py_scope with py.
Notation "x <- m ;; k" := (obind m (fun x => k))
  (at level 61, m at next level, right associativity) : py_scope.
Notation "' pat <- m ;; k" := (obind m (fun x => match x with pat => k end))
  (at level 61, pat pattern, m at next level, right associativity) : py_scope.
Local Open Scope py_scope.

(** ** numpy arrays of at most two dimensions

    [Arr0] is a 0-d array (and a numpy scalar), of shape [()]; [Arr1 v] has
    shape [(len v,)]; [Arr2 c rows] has shape [(len rows, c)].  The column
    count is stored so that an array with no rows keeps its second
    dimension, as numpy's does. *)

Inductive ndarray : Type :=
| Arr0 (x : R)
| Arr1 (v : list R)
| Arr2 (ncols : nat) (rows : list (list R)).

Definition shape (a : ndarray) : list nat :=
  match a with
  | Arr0 _ => []
  | Arr1 v => [length v]
  | Arr2 c rows => [length rows; c]
  end.

(** [a.flatten()] / row-major order of the elements. *)
Definition ravel (a : ndarray) : list R :=
  match a with
  | Arr0 x => [x]
  | Arr1 v => v
  | Arr2 _ rows => concat rows
  end.

Definition flatten (a : ndarray) : ndarray := Arr1 (ravel a).

(** [a.reshape(1, n)]: a [ValueError] unless [a] has exactly [n] elements. *)
Definition reshape_1 (a : ndarray) (n : nat) : option ndarray :=
  if Nat.eqb (length (ravel a)) n then Some (Arr2 n [ravel a]) else None.

(** [a.reshape(1, -1)]: the second dimension is inferred. *)
Definition reshape_1_infer (a : ndarray) : ndarray :=
  Arr2 (length (ravel a)) [ravel a].

(** Element-wise application of a scalar function ([np.sqrt], [np.abs],
    unary minus, and a binary operator one of whose operands is a scalar). *)
Definition arr_map (f : R -> R) (a : ndarray) : ndarray :=
  match a with
  | Arr0 x => Arr0 (f x)
  | Arr1 v => Arr1 (map f v)
  | Arr2 c rows => Arr2 c (map (map f) rows)
  end.

Definition dot (u v : list R) : R :=
  fold_right (fun ab acc => fst ab * snd ab + acc) 0 (combine u v).

Definition column (j : nat) (rows : list (list R)) : list R :=
  map (fun r => nth j r 0) rows.

Definition columns (c : nat) (rows : list (list R)) : list (list R) :=
  map (fun j => column j rows) (seq 0 c).

(** [a.T] *)
Definition transpose (a : ndarray) : ndarray :=
  match a with
  | Arr2 c rows => Arr2 (length rows) (columns c rows)
  | _ => a
  end.

(** [a @ b].  A 0-d operand, or inner dimensions that differ, raise
    [ValueError]. *)
Definition matmul (a b : ndarray) : option ndarray :=
  match a, b with
  | Arr2 c rows, Arr2 c' rows' =>
      if Nat.eqb c (length rows')
      then Some (Arr2 c' (map (fun r => map (dot r) (columns c' rows')) rows))
      else None
  | Arr2 c rows, Arr1 v =>
      if Nat.eqb c (length v) then Some (Arr1 (map (fun r => dot r v) rows))
      else None
  | Arr1 u, Arr2 c' rows' =>
      if Nat.eqb (length u) (length rows')
      then Some (Arr1 (map (dot u) (columns c' rows')))
      else None
  | Arr1 u, Arr1 v =>
      if Nat.eqb (length u) (length v) then Some (Arr0 (dot u v)) else None
  | _, _ => None
  end.

(** [np.dot(a, b)]: scalar multiplication when an operand is 0-d, the matrix
    product otherwise. *)
Definition np_dot (a b : ndarray) : option ndarray :=
  match a, b with
  | Arr0 x, _ => Some (arr_map (Rmult x) b)
  | _, Arr0 y => Some (arr_map (fun v => v * y) a)
  | _, _ => matmul a b
  end.

(** Broadcasting of two dimensions: equal, or one of them is 1. *)
Definition bdim (n m : nat) : option nat :=
  if Nat.eqb n m then Some n
  else if Nat.eqb n 1 then Some m
  else if Nat.eqb m 1 then Some n
  else None.

Definition atleast_2d (a : ndarray) : nat * list (list R) :=
  match a with
  | Arr0 x => (1%nat, [[x]])
  | Arr1 v => (length v, [v])
  | Arr2 c rows => (c, rows)
  end.

(** Element [(i, j)] of a 2-d operand stretched along its dimensions of
    length 1. *)
Definition bget (c : nat) (rows : list (list R)) (i j : nat) : R :=
  nth (if Nat.eqb c 1 then 0%nat else j)
      (nth (if Nat.eqb (length rows) 1 then 0%nat else i) rows []) 0.

(** [a (op) b] for arrays, with numpy's broadcasting. *)
Definition arr_binop (f : R -> R -> R) (a b : ndarray) : option ndarray :=
  match a, b with
  | Arr0 x, _ => Some (arr_map (f x) b)
  | _, Arr0 y => Some (arr_map (fun v => f v y) a)
  | Arr1 u, Arr1 v =>
      n <- bdim (length u) (length v) ;;
      Some (Arr1 (map (fun j => f (bget (length u) [u] 0 j)
                                  (bget (length v) [v] 0 j)) (seq 0 n)))
  | _, _ =>
      let '(ca, ra) := atleast_2d a in
      let '(cb, rb) := atleast_2d b in
      n <- bdim (length ra) (length rb) ;;
      c <- bdim ca cb ;;
      Some (Arr2 c (map (fun i => map (fun j => f (bget ca ra i j)
                                                  (bget cb rb i j))
                                       (seq 0 c))
                        (seq 0 n)))
  end.

(** [np.sum(a)] *)
Definition np_sum (a : ndarray) : R := fold_right Rplus 0 (ravel a).

(** [np.vstack(arrays)]: every array is promoted to two dimensions and the
    rows are stacked; no array, or arrays of different widths, raise
    [ValueError]. *)
Fixpoint vstack_rows (c : nat) (l : list ndarray) : option (list (list R)) :=
  match l with
  | [] => Some []
  | a :: t =>
      let '(c', rows) := atleast_2d a in
      if Nat.eqb c' c
      then rest <- vstack_rows c t ;; Some (rows ++ rest)
      else None
  end.

Definition np_vstack (l : list ndarray) : option ndarray :=
  match l with
  | [] => None
  | a :: _ =>
      let c := fst (atleast_2d a) in
      rows <- vstack_rows c l ;; Some (Arr2 c rows)
  end.

(** [np.argmax(vals)]: the first index that holds the maximum; a
    [ValueError] on an empty sequence. *)
Fixpoint argmax_from (best_i : nat) (best : R) (i : nat) (l : list R) : nat :=
  match l with
  | [] => best_i
  | v :: t =>
      if Rlt_dec best v then argmax_from i v (S i) t
      else argmax_from best_i best (S i) t
  end.

Definition np_argmax (l : list R) : option nat :=
  match l with
  | [] => None
  | v :: t => Some (argmax_from 0 v 1 t)
  end.

(** [functools.reduce(f, l)] without an initial value: a [TypeError] on an
    empty sequence. *)
Definition py_reduce {A : Type} (f : A -> A -> A) (l : list A) : option A :=
  match l with
  | [] => None
  | x :: t => Some (fold_left f t x)
  end.

(** [int(r)] for a finite float: truncation toward zero. *)
Definition py_int (r : R) : Z :=
  if Rle_dec 0 r then Int_part r else (- Int_part (- r))%Z.

(** ** float64 rounding

    The doubles around a positive real [x] are the multiples of
    [2^(e - 52)], where [e = floor(log2 x)] and at least -1022 (below
    [2^-1022] lie the subnormals, spaced [2^-1074] apart).  The exponent is
    read off the integer part of [x * 2^1074]. *)
Definition float64_exponent (x : R) : Z :=
  Z.max (-1022) (Z.log2 (Int_part (x * 2 ^ 1074)) - 1074).

Definition float64_ulp (x : R) : R := powerRZ 2 (float64_exponent x - 52).

(** The integer nearest to [m]; of two at the same distance, the even
    one. *)
Definition round_half_even (m : R) : Z :=
  let f := Int_part m in
  if Rlt_dec (m - IZR f) (1 / 2) then f
  else if Rlt_dec (1 / 2) (m - IZR f) then (f + 1)%Z
  else if Z.even f then f else (f + 1)%Z.

(** The double nearest to a real (round to nearest, ties to even), for
    reals within the range of the doubles; the caller checks for
    overflow. *)
Definition float64 (x : R) : R :=
  if Rlt_dec 0 x
  then float64_ulp x * IZR (round_half_even (x / float64_ulp x))
  else if Rlt_dec x 0
  then - (float64_ulp (- x) * IZR (round_half_even (- x / float64_ulp (- x))))
  else 0.

(** ** Values crossing the agent's interface *)

(** The observation [y_t] handed to [update]: a plain Python float or an
    array. *)
Inductive pyobj : Type :=
| PyFloat (r : R)
| PyArray (a : ndarray).

(** The attributes of scipy's [OptimizeResult] that the agent reads. *)
Record OptimizeResult : Type := mkResult {
  res_x : list R;
  res_fun : R
}.

(** ** Collaborators

    [ssp] (basis generators, fractional binding, binding), [blr] (the
    Bayesian linear regression), numpy's generator and pseudo-inverse, and
    scipy's L-BFGS-B minimiser.  A generator that draws random numbers reads
    and advances numpy's global generator state, which is threaded
    explicitly. *)
Class Externals : Type := {
  rng_state : Type;
  blr_state : Type;
  (** [ssp.HexagonalBasis(dim, n_rotates, n_scales, scale_min, scale_max)[0]] *)
  ssp_HexagonalBasis :
    rng_state -> nat -> Z -> Z -> R -> R -> option (list ndarray * rng_state);
  (** [ssp.RandomBasis(dim, axis_dim)[0]] *)
  ssp_RandomBasis : rng_state -> nat -> Z -> option (list ndarray * rng_state);
  (** [ssp.encode(p, s)]: the pointer [p] raised to the power [s] *)
  ssp_encode : list R -> R -> list R;
  (** [ssp.bind(u, v)] *)
  ssp_bind : list R -> list R -> list R;
  (** [blr.BayesianLinearRegression(size)] *)
  blr_new : Z -> option blr_state;
  (** [b.update(phis, ys)] *)
  blr_update : blr_state -> ndarray -> pyobj -> option blr_state;
  (** [b.predict(phis)] *)
  blr_predict : blr_state -> ndarray -> option (ndarray * ndarray);
  (** the attributes [b.m], [b.S] and [b.beta] *)
  blr_m : blr_state -> ndarray;
  blr_S : blr_state -> ndarray;
  blr_beta : blr_state -> R;
  (** [np.linalg.pinv(a)] *)
  np_linalg_pinv : ndarray -> option ndarray;
  (** [np.random.uniform(low, high, size=(n,))] *)
  np_random_uniform : rng_state -> list R -> list R -> nat -> list R * rng_state;
  (** [minimize(f, x0, method='L-BFGS-B', bounds=b)]; the objective may raise,
      and then so does the minimiser. *)
  scipy_minimize :
    (list R -> option ndarray) -> list R -> option (list (R * R)) ->
    option OptimizeResult
}.

Section Agent.

Context {ext : Externals}.

(** ** The agent's state: the attributes of an [SSPAgent] instance *)

Record SSPAgent : Type := mkAgent {
  num_restarts : nat;
  ptrs : ndarray;
  ssp_dim : Z;
  length_scale : list R;
  blr : blr_state;
  gamma_t : R;
  sqrt_alpha : R;
  phis : option ndarray
}.

(** The process state a method can touch: the instance and numpy's global
    generator. *)
Record world : Type := mkWorld {
  self : SSPAgent;
  np_random : rng_state
}.

Definition set_phis (ag : SSPAgent) (p : option ndarray) : SSPAgent :=
  mkAgent (num_restarts ag) (ptrs ag) (ssp_dim ag) (length_scale ag) (blr ag)
          (gamma_t ag) (sqrt_alpha ag) p.

Definition set_blr (ag : SSPAgent) (b : blr_state) : SSPAgent :=
  mkAgent (num_restarts ag) (ptrs ag) (ssp_dim ag) (length_scale ag) b
          (gamma_t ag) (sqrt_alpha ag) (phis ag).

Definition set_gamma_t (ag : SSPAgent) (g : R) : SSPAgent :=
  mkAgent (num_restarts ag) (ptrs ag) (ssp_dim ag) (length_scale ag) (blr ag)
          g (sqrt_alpha ag) (phis ag).

(** ** [_encode] (agent.py, lines 166-175) *)

(** The list comprehension of line 172, for one row [xrow] of [x]:
    [ssp.encode(p, x[i,p_idx] / length_scale[p_idx])] for every pointer [p];
    an index past the end of the row or of the length scale raises
    [IndexError]. *)
Fixpoint encode_factors (ps : list (list R)) (p_idx : nat)
    (xrow ls : list R) : option (list (list R)) :=
  match ps with
  | [] => Some []
  | p :: rest =>
      xi <- nth_error xrow p_idx ;;
      li <- nth_error ls p_idx ;;
      vs <- encode_factors rest (S p_idx) xrow ls ;;
      Some (ssp_encode p (xi / li) :: vs)
  end.

(** [outputs[i,:] = v] into a row of width [K]: [v] has [K] elements, or one
    element that is broadcast; otherwise [ValueError]. *)
Definition assign_row (K : nat) (v : list R) : option (list R) :=
  if Nat.eqb (length v) K then Some v
  else if Nat.eqb (length v) 1 then Some (repeat (hd 0 v) K)
  else None.

Fixpoint encode_rows (K : nat) (ps : list (list R)) (ls : list R)
    (xrows : list (list R)) : option (list (list R)) :=
  match xrows with
  | [] => Some []
  | xrow :: rest =>
      vs <- encode_factors ps 0 xrow ls ;;
      v <- py_reduce ssp_bind vs ;;
      out <- assign_row K v ;;
      outs <- encode_rows K ps ls rest ;;
      Some (out :: outs)
  end.

(** [x] must be 2-d for its shape to unpack into two names; [np.zeros]
    refuses a negative dimension; [ptrs] is the result of [np.vstack] and so
    is 2-d, and iterating over it yields its rows. *)
Definition _encode (K : Z) (ptrs : ndarray) (x : ndarray)
    (length_scale : list R) : option ndarray :=
  match x, ptrs with
  | Arr2 _ xrows, Arr2 _ ps =>
      if (K <? 0)%Z then None
      else rows <- encode_rows (Z.to_nat K) ps length_scale xrows ;;
           Some (Arr2 (Z.to_nat K) rows)
  | _, _ => None
  end.

(** [encode] (lines 64-65) *)
Definition encode (ag : SSPAgent) (xs : ndarray) : option ndarray :=
  _encode (ssp_dim ag) (ptrs ag) xs (length_scale ag).

(** ** [_optimize_lengthscale] (lines 67-81) *)

Definition min_func (K : Z) (ptrs init_xs init_ys : ndarray)
    (length_scale : list R) : option ndarray :=
  init_phis <- _encode K ptrs init_xs (map Rabs length_scale) ;;
  P <- np_linalg_pinv init_phis ;;
  W <- matmul P init_ys ;;
  mu <- np_dot init_phis W ;;
  diff <- arr_binop Rminus init_ys (transpose mu) ;;
  Some (Arr0 (np_sum (arr_map (fun d => d ^ 2) diff))).

Definition _optimize_lengthscale (K : Z) (ptrs init_xs init_ys : ndarray)
    : option (list R) :=
  data_dim <- nth_error (shape init_xs) 1 ;;
  let ls_0 := map (Rmult 4) (repeat 1 data_dim) in
  retval <- scipy_minimize (min_func K ptrs init_xs init_ys) ls_0 None ;;
  Some (map Rabs (res_x retval)).

(** ** [__init__] (lines 22-62) *)

Record init_args : Type := mkArgs {
  init_xs : ndarray;
  init_ys : ndarray;
  axis_type : string;
  axis_dim : Z;
  n_scales : Z;
  n_rotates : Z;
  scale_min : R;
  scale_max : R
}.

(** The call [SSPAgent(init_xs, init_ys)] with every keyword left at its
    default. *)
Definition default_args (xs ys : ndarray) : init_args :=
  mkArgs xs ys "hex" 385 8 8
         (2 * PI / sqrt 6 - 0.5) (2 * PI / sqrt 6 + 0.5).

(** Line 32: [int(np.sqrt((axis_dim-1)/6))], for a Python int [axis_dim].
    The division of two ints gives the double nearest to the exact
    quotient, and [OverflowError] when that is beyond the largest double;
    [np.sqrt] gives the double nearest to the root.  The square root of a
    negative float is NaN, and [int] of a NaN raises [ValueError]. *)
Definition backsolve_count (axis_dim : Z) : option Z :=
  if (axis_dim - 1 <? 0)%Z then None
  else if (6 * (2 ^ 1024 - 2 ^ 970) <=? axis_dim - 1)%Z then None
  else Some (py_int (float64 (sqrt (float64 (IZR (axis_dim - 1) / 6))))).

(** Lines 31-33: the rotate and scale counts given to the hexagonal basis,
    as [(n_rotates, n_scales)]. *)
Definition hex_counts (a : init_args) : option (Z * Z) :=
  if (n_rotates a =? 8)%Z && (n_scales a =? 8)%Z && negb (axis_dim a =? 385)%Z
  then k <- backsolve_count (axis_dim a) ;; Some (k, k)
  else Some (n_rotates a, n_scales a).

(** Lines 35-38, for given counts. *)
Definition hex_axes (a : init_args) (data_dim : nat) (counts : Z * Z)
    (g : rng_state) : option (ndarray * Z * rng_state) :=
  '(ps, g') <- ssp_HexagonalBasis g data_dim (fst counts) (snd counts)
                                  (scale_min a) (scale_max a) ;;
  stacked <- np_vstack ps ;;
  d <- nth_error (shape stacked) 1 ;;
  Some (stacked, Z.of_nat d, g').

(** Lines 30-42: the pointers, the encoding dimension and the generator
    state after the basis has been drawn. *)
Definition create_axes (a : init_args) (data_dim : nat) (g : rng_state)
    : option (ndarray * Z * rng_state) :=
  if String.eqb (axis_type a) "hex" then
    counts <- hex_counts a ;;
    hex_axes a data_dim counts g
  else
    '(ps, g') <- ssp_RandomBasis g data_dim (axis_dim a) ;;
    stacked <- np_vstack ps ;;
    Some (stacked, axis_dim a, g').

(** The confidence parameter of line 57 and the value stored in
    [self.sqrt_alpha]. *)
Definition delta : R := 1e-6.

Definition init_sqrt_alpha : R := ln (2 / delta).

Definition SSPAgent_init (a : init_args) (g : rng_state) : option world :=
  match init_xs a with
  | Arr2 data_dim _ =>
      '(ptrs, K, g') <- create_axes a data_dim g ;;
      ls <- _optimize_lengthscale K ptrs (init_xs a) (init_ys a) ;;
      init_phis <- _encode K ptrs (init_xs a) ls ;;
      b0 <- blr_new K ;;
      b <- blr_update b0 init_phis (PyArray (init_ys a)) ;;
      Some (mkWorld (mkAgent 10 ptrs K ls b 0 init_sqrt_alpha None) g')
  | _ => None
  end.

(** ** [eval] (lines 84-90) *)

Definition exploration_bonus (sqrt_alpha gamma : R) (var : ndarray) : ndarray :=
  arr_map (Rmult sqrt_alpha)
    (arr_map (fun s => s - sqrt gamma)
       (arr_map sqrt (arr_map (fun v => v + gamma) var))).

Definition eval (xs : ndarray) (w : world)
    : option (ndarray * ndarray * ndarray * world) :=
  ph <- match phis (self w) with
        | None => encode (self w) xs
        | Some p => Some p
        end ;;
  let ag := set_phis (self w) (Some ph) in
  '(mu, var) <- blr_predict (blr ag) ph ;;
  let phi := exploration_bonus (sqrt_alpha ag) (gamma_t ag) var in
  Some (mu, var, phi, mkWorld ag (np_random w)).

(** ** [select_optimal] (lines 92-144) *)

(** [optim_func] (lines 97-106).  The keyword defaults [m], [sigma], [gamma]
    and [beta_inv] are evaluated once, when the [def] is executed. *)
Definition optim_func (ag : SSPAgent) (m sigma : ndarray) (gamma beta_inv : R)
    (x : list R) : option ndarray :=
  ptr <- encode ag (reshape_1_infer (Arr1 x)) ;;
  val <- matmul ptr m ;;
  ps <- matmul ptr sigma ;;
  q <- matmul ps (transpose ptr) ;;
  let mi := arr_map (fun s => s - sqrt gamma)
              (arr_map sqrt (arr_map (fun v => gamma + beta_inv + v) q)) in
  s <- arr_binop Rplus val mi ;;
  Some (flatten (arr_map Ropp s)).

(** The objective as [select_optimal] builds it from the instance. *)
Definition objective (ag : SSPAgent) : list R -> option ndarray :=
  optim_func ag (blr_m (blr ag)) (blr_S (blr ag)) (gamma_t ag)
             (blr_beta (blr ag)).

(** [gradient] (lines 108-117).  It is defined beside [optim_func] with the
    same keyword defaults; the call of [minimize] on line 133 does not pass
    it. *)
Definition gradient (ag : SSPAgent) (m sigma : ndarray) (gamma beta_inv : R)
    (x : list R) : option ndarray :=
  ptr <- encode ag (reshape_1_infer (Arr1 x)) ;;
  ps <- matmul ptr sigma ;;
  sqr <- matmul ps (transpose ptr) ;;
  let scale :=
    arr_map sqrt (arr_map (fun v => v + gamma + beta_inv) sqr) in
  sp <- matmul sigma (transpose ptr) ;;
  d <- arr_binop Rdiv sp scale ;;
  s <- arr_binop Rplus (flatten m) d ;;
  Some (arr_map Ropp s).

(** The loop of lines 123-135: [n] iterations that extend [solns] and
    [vals]. *)
Fixpoint restart_loop (n : nat) (f : list R -> option ndarray)
    (bounds : list (R * R)) (solns : list (list R)) (vals : list R)
    (w : world) : option (list (list R) * list R * world) :=
  match n with
  | O => Some (solns, vals, w)
  | S n' =>
      let '(phi_init, g') :=
        np_random_uniform (np_random w) (map fst bounds) (map snd bounds)
                          (length bounds) in
      soln <- scipy_minimize f phi_init (Some bounds) ;;
      restart_loop n' f bounds (solns ++ [res_x soln])
                   (vals ++ [- res_fun soln]) (mkWorld (self w) g')
  end.

Definition select_optimal (bounds : list (R * R)) (w : world)
    : option (ndarray * R * Z * world) :=
  let f := objective (self w) in
  '(solns, vals, w') <-
    restart_loop (num_restarts (self w)) f bounds [] [] w ;;
  best_val_idx <- np_argmax vals ;;
  best_soln <- nth_error solns best_val_idx ;;
  best_score <- nth_error vals best_val_idx ;;
  Some (reshape_1_infer (Arr1 best_soln), best_score, 0%Z, w').

(** ** [update] (lines 146-163) *)

(** [y_t.reshape(1, y_t.shape[0])]: a float has neither attribute, and the
    empty shape of a 0-d array has no entry 0. *)
Definition reshape_target (y_t : pyobj) : option pyobj :=
  match y_t with
  | PyFloat _ => None
  | PyArray a =>
      n <- nth_error (shape a) 0 ;;
      r <- reshape_1 a n ;;
      Some (PyArray r)
  end.

Definition update (x_t : ndarray) (y_t : pyobj) (sigma_t : R) (w : world)
    : option world :=
  '(x_val, y_val) <-
    (if Nat.ltb (length (shape x_t)) 2 then
       n <- nth_error (shape x_t) 0 ;;
       xv <- reshape_1 x_t n ;;
       yv <- reshape_target y_t ;;
       Some (xv, yv)
     else Some (x_t, y_t)) ;;
  phi <- encode (self w) x_val ;;
  b <- blr_update (blr (self w)) phi y_val ;;
  let ag := set_blr (self w) b in
  Some (mkWorld (set_gamma_t ag (gamma_t ag + sigma_t)) (np_random w)).

(** ** Runs of the agent *)

(** One call [update(x_t, y_t, sigma_t)] of the outer loop. *)
Record update_call : Type := mkCall {
  call_x : ndarray;
  call_y : pyobj;
  call_sigma : R
}.

(** A sequence of [update] calls, in order; the first exception ends it. *)
Fixpoint run_updates (calls : list update_call) (w : world) : option world :=
  match calls with
  | [] => Some w
  | c :: rest =>
      w' <- update (call_x c) (call_y c) (call_sigma c) w ;;
      run_updates rest w'
  end.

(** The states an outer loop can bring the agent to: construction, then any
    number of completed calls of the three methods. *)
Inductive reachable : world -> Prop :=
| reach_init a g w :
    SSPAgent_init a g = Some w -> reachable w
| reach_eval xs w out w' :
    reachable w -> eval xs w = Some (out, w') -> reachable w'
| reach_update x y s w w' :
    reachable w -> update x y s w = Some w' -> reachable w'
| reach_select bounds w out w' :
    reachable w -> select_optimal bounds w = Some (out, w') -> reachable w'.

(** [evolves w w']: the outer loop takes the process from [w] to [w'] by
    calls of the three methods that return. *)
Inductive evolves : world -> world -> Prop :=
| evolves_refl w : evolves w w
| evolves_eval xs w w1 out w' :
    evolves w w1 -> eval xs w1 = Some (out, w') -> evolves w w'
| evolves_update x y s w w1 w' :
    evolves w w1 -> update x y s w1 = Some w' -> evolves w w'
| evolves_select bounds w w1 out w' :
    evolves w w1 -> select_optimal bounds w1 = Some (out, w') -> evolves w w'.

(** [runs w sigmas w']: as [evolves], with the [sigma_t] of the [update]
    calls made on the way, in order. *)
Inductive runs : world -> list R -> world -> Prop :=
| runs_refl w : runs w [] w
| runs_eval xs w sigmas w1 out w' :
    runs w sigmas w1 -> eval xs w1 = Some (out, w') -> runs w sigmas w'
| runs_update x y s w sigmas w1 w' :
    runs w sigmas w1 -> update x y s w1 = Some w' ->
    runs w (sigmas ++ [s]) w'
| runs_select bounds w sigmas w1 out w' :
    runs w sigmas w1 -> select_optimal bounds w1 = Some (out, w') ->
    runs w sigmas w'.

(** ** The statements of the specification, in its own terms *)

(** The objective of the specification at the encoding [phi] of a point:
    [-(phi . m + sqrt(gamma + beta_inv + phi . S . phi^T) - sqrt(gamma))]. *)
Definition spec_objective (phi m : list R) (S : list (list R))
    (gamma beta_inv : R) : R :=
  - (dot phi m
     + sqrt (gamma + beta_inv + dot phi (map (fun row => dot row phi) S))
     - sqrt gamma).

(** The back-solved count of the specification:
    [floor(sqrt((encoding_dim - 1) / 6))]. *)
Definition spec_backsolve (encoding_dim : Z) : Z :=
  Int_part (sqrt ((IZR encoding_dim - 1) / 6)).

(** The starting points of [n] restarts: [n] successive draws of
    [np.random.uniform] between the lower and the upper bounds. *)
Fixpoint draw_starts (n : nat) (bounds : list (R * R)) (g : rng_state)
    : list (list R) * rng_state :=
  match n with
  | O => ([], g)
  | S n' =>
      let '(x0, g') := np_random_uniform g (map fst bounds) (map snd bounds)
                                         (length bounds) in
      let '(rest, g'') := draw_starts n' bounds g' in
      (x0 :: rest, g'')
  end.

(** Every coordinate within its [(lower, upper)] pair. *)
Definition in_box (bounds : list (R * R)) (x : list R) : Prop :=
  Forall2 (fun b xi => fst b <= xi <= snd b) bounds x.

End Agent.

Arguments SSPAgent : clear implicits.
Arguments world : clear implicits.

(** ** A small implementation of the collaborators

    Pointers of two components, a posterior that a new observation leaves
    as it is, a generator that returns the lower bounds, and a
    minimiser.  It shows that the hypotheses of the theorems below can be
    met, and supplies the concrete runs. *)
Module Demo.

Record posterior : Type := mkPost {
  post_m : ndarray;
  post_S : ndarray;
  post_beta : R
}.

Definition hexagonal_basis (g : nat) (dim : nat) (n_rotates n_scales : Z)
    (scale_min scale_max : R) : option (list ndarray * nat) :=
  Some (repeat (Arr1 [1; 1]) dim, g).

Definition random_basis (g : nat) (dim : nat) (axis_dim : Z)
    : option (list ndarray * nat) :=
  Some (repeat (Arr1 (repeat 1 (Z.to_nat axis_dim))) dim, S g).

Definition power (p : list R) (s : R) : list R := map (Rmult s) p.

Definition bind (u v : list R) : list R :=
  map (fun ab => fst ab + snd ab) (combine u v).

Definition new_posterior (K : Z) : option posterior :=
  if (K <? 0)%Z then None
  else Some (mkPost (Arr2 1 (repeat [0] (Z.to_nat K)))
                    (Arr2 (Z.to_nat K)
                          (repeat (repeat 0 (Z.to_nat K)) (Z.to_nat K)))
                    1).

Definition observe (b : posterior) (phis : ndarray) (ys : pyobj)
    : option posterior := Some b.

Definition predict (b : posterior) (phis : ndarray)
    : option (ndarray * ndarray) :=
  match phis with
  | Arr2 _ rows =>
      Some (Arr1 (map (fold_right Rplus 0) rows), Arr1 (map (fun _ => 1) rows))
  | _ => None
  end.

Definition pinv (a : ndarray) : option ndarray := Some (transpose a).

Definition uniform (g : nat) (low high : list R) (n : nat) : list R * nat :=
  (low, S g).

Definition feasible (b : list (R * R)) : bool :=
  forallb (fun p => if Rle_dec (fst p) (snd p) then true else false) b.

(** A minimiser that stays at [x0] when unconstrained and answers the lower
    corner of a feasible box. *)
Definition corner_minimize (f : list R -> option ndarray) (x0 : list R)
    (bounds : option (list (R * R))) : option OptimizeResult :=
  match bounds with
  | None => v <- f x0 ;; Some (mkResult x0 (hd 0 (ravel v)))
  | Some b =>
      if feasible b
      then v <- f (map fst b) ;; Some (mkResult (map fst b) (hd 0 (ravel v)))
      else None
  end.

Definition collaborators
    (minimize : (list R -> option ndarray) -> list R ->
                option (list (R * R)) -> option OptimizeResult)
    : Externals :=
  {| rng_state := nat;
     blr_state := posterior;
     ssp_HexagonalBasis := hexagonal_basis;
     ssp_RandomBasis := random_basis;
     ssp_encode := power;
     ssp_bind := bind;
     blr_new := new_posterior;
     blr_update := observe;
     blr_predict := predict;
     blr_m := post_m;
     blr_S := post_S;
     blr_beta := post_beta;
     np_linalg_pinv := pinv;
     np_random_uniform := uniform;
     scipy_minimize := minimize |}.

Definition ext : Externals := collaborators corner_minimize.

(** [SSPAgent(np.array([[1.]]), np.array([1.]))] *)
Definition args : init_args := default_args (Arr2 1 [[1]]) (Arr1 [1]).

(** [SSPAgent(np.array([[1.]]), np.array([1.]), axis_dim=151, scale_min=3.,
    scale_max=4.)] *)
Definition args151 : init_args :=
  mkArgs (Arr2 1 [[1]]) (Arr1 [1]) "hex" 151 8 8 3 4.

(** The agent that this construction yields with [ext]. *)
Definition agent0 : SSPAgent ext :=
  @mkAgent ext 10 (Arr2 2 [[1; 1]]) 2 [Rabs (4 * 1)]
          (mkPost (Arr2 1 [[0]; [0]]) (Arr2 2 [[0; 0]; [0; 0]]) 1)
          0 init_sqrt_alpha None.

Definition world0 : world ext := @mkWorld ext agent0 0%nat.

(** The box [[(0., 1.)]] and what one restart of [select_optimal] finds in
    it from [world0]. *)
Definition bounds01 : list (R * R) := [(0, 1)].

Definition result0 : OptimizeResult :=
  mkResult [0]
           match @objective ext agent0 [0] with
           | Some v => hd 0 (ravel v)
           | None => 0
           end.

(** A box with no point in it. *)
Definition bounds10 : list (R * R) := [(1, 0)].

End Demo.

(** ** The trajectory experiment ([experiments/run_traj_agent.py], lines
    20-28)

    The module-level constants and the target function.  The trial class
    drives [ssp_bayes_opt.BayesianOptimization], which is not part of the
    agent, and is left out. *)
Module Experiment.

(** [a.reshape(r, c)]: the elements in row-major order, cut into [r] rows
    of [c]; a [ValueError] unless [a] has [r * c] elements. *)
Fixpoint chunks (r c : nat) (l : list R) : list (list R) :=
  match r with
  | O => []
  | S r' => firstn c l :: chunks r' c (skipn c l)
  end.

Definition reshape_2 (a : ndarray) (r c : nat) : option ndarray :=
  if Nat.eqb (length (ravel a)) (r * c)
  then Some (Arr2 c (chunks r c (ravel a)))
  else None.

(** [np.sum(a, axis=1)]: the sums of the rows of a 2-d array; an
    [AxisError] for fewer dimensions. *)
Definition sum_axis1 (a : ndarray) : option ndarray :=
  match a with
  | Arr2 _ rows => Some (Arr1 (map (fold_right Rplus 0) rows))
  | _ => None
  end.

(** [np.stack([u, v])] of two 1-d arrays: they must have the same
    length. *)
Definition np_stack2 (u v : list R) : option ndarray :=
  if Nat.eqb (length u) (length v) then Some (Arr2 (length u) [u; v])
  else None.

Definition budget : nat := 200.

Definition xstar : ndarray :=
  arr_map (fun v => v * 10) (Arr2 2 [[0; 0]; [0.5; -0.3]; [0.6; 0.7]]).

Definition traj_len : nat := nth 0 (shape xstar) 0%nat.

Definition pt_dim : nat := nth 1 (shape xstar) 0%nat.

Definition data_dim : nat := traj_len * pt_dim.

(** [10*np.stack([-np.ones(data_dim), np.ones(data_dim)]).T] *)
Definition bounds : option ndarray :=
  st <- np_stack2 (map Ropp (repeat 1 data_dim)) (repeat 1 data_dim) ;;
  Some (arr_map (Rmult 10) (transpose st)).

(** [target] (lines 27-28) *)
Definition target (x : ndarray) : option R :=
  xr <- reshape_2 x traj_len pt_dim ;;
  diff <- arr_binop Rminus xr xstar ;;
  sq <- sum_axis1 (arr_map (fun d => d ^ 2) diff) ;;
  Some (np_sum (arr_map sqrt sq)).

(** The rows [b] of a bounds array as the pairs [(b[0], b[1])] that
    [select_optimal] reads from them; a row of fewer than two entries
    raises [IndexError]. *)
Fixpoint bound_pairs (rows : list (list R)) : option (list (R * R)) :=
  match rows with
  | [] => Some []
  | b :: rest =>
      lo <- nth_error b 0 ;;
      hi <- nth_error b 1 ;;
      ps <- bound_pairs rest ;;
      Some ((lo, hi) :: ps)
  end.

End Experiment.

(** * Properties *)

(** Case analysis on a sequence of calls that did not raise. *)
Ltac bind_inv H :=
  repeat match type of H with
  | obind ?m _ = Some _ =>
      let E := fresh "E" in
      destruct m eqn:E; [cbn [obind] in H | discriminate H]
  | (let '(_, _) := ?p in _) = Some _ => destruct p
  | match ?p with (_, _) => _ end = Some _ => destruct p
  end.

(** ** Facts about arrays and reals *)

Lemma arr_map_arr_map (f g : R -> R) (a : ndarray) :
  arr_map f (arr_map g a) = arr_map (fun v => f (g v)) a.
Proof.
  destruct a as [x | v | c rows]; cbn.
  - reflexivity.
  - now rewrite map_map.
  - rewrite map_map. f_equal. apply map_ext. intros r. apply map_map.
Qed.

Lemma two_over_delta : 2 / delta = 2000000.
Proof. unfold delta. lra. Qed.

Lemma ln_two_over_delta_gt_1 : 1 < ln (2 / delta).
Proof.
  rewrite two_over_delta.
  rewrite <- (ln_exp 1) at 1.
  apply ln_increasing.
  - apply exp_pos.
  - pose proof exp_le_3. lra.
Qed.

Section AgentFacts.

Context {ext : Externals}.

(** ** What each method does to the state *)

Lemma eval_inv xs (w : world ext) mu var phi w' :
  eval xs w = Some (mu, var, phi, w') ->
  exists ph,
    match phis (self w) with
    | None => encode (self w) xs
    | Some p => Some p
    end = Some ph /\
    blr_predict (blr (self w)) ph = Some (mu, var) /\
    phi = exploration_bonus (sqrt_alpha (self w)) (gamma_t (self w)) var /\
    w' = mkWorld (set_phis (self w) (Some ph)) (np_random w).
Proof.
  unfold eval. intros H. bind_inv H.
  cbn in *. injection H as <- <- <- <-.
  eexists. repeat split; eassumption || reflexivity.
Qed.

Lemma update_inv x y s (w w' : world ext) :
  update x y s w = Some w' ->
  exists b,
    w' = mkWorld (set_gamma_t (set_blr (self w) b) (gamma_t (self w) + s))
                 (np_random w).
Proof.
  unfold update. intros H. bind_inv H.
  injection H as <-. eexists. reflexivity.
Qed.

Lemma restart_loop_self n f bounds : forall solns vals (w : world ext) out w',
  restart_loop n f bounds solns vals w = Some (out, w') -> self w' = self w.
Proof.
  induction n as [| n IH]; intros solns vals w out w' H; cbn in H.
  - now injection H as _ <-.
  - destruct (np_random_uniform _ _ _ _) as [x0 g'].
    bind_inv H. apply IH in H. exact H.
Qed.

Lemma select_optimal_self bounds (w : world ext) out w' :
  select_optimal bounds w = Some (out, w') -> self w' = self w.
Proof.
  unfold select_optimal. intros H. bind_inv H.
  injection H as _ <-.
  eapply restart_loop_self. eassumption.
Qed.

(** The attributes that no method assigns after construction. *)
Lemma reachable_constants (w : world ext) :
  reachable w ->
  num_restarts (self w) = 10%nat /\ sqrt_alpha (self w) = init_sqrt_alpha.
Proof.
  induction 1 as [a g w H | xs w [[mu var] phi] w' _ IH H
                  | x y s w w' _ IH H | bounds w out w' _ IH H].
  - unfold SSPAgent_init in H. destruct (init_xs a); try discriminate.
    bind_inv H. injection H as <-. split; reflexivity.
  - apply eval_inv in H as (ph & _ & _ & _ & ->). exact IH.
  - apply update_inv in H as [b ->]. exact IH.
  - apply select_optimal_self in H. rewrite H. exact IH.
Qed.

End AgentFacts.

(** ** The exploration width of [eval] *)

(** C1.  In every state the agent can reach, [self.sqrt_alpha] holds
    [log(2/delta)] for [delta = 1e-6], which is not [sqrt(log(2/delta))];
    the bonus that [eval] returns is
    [log(2/delta) * (sqrt(var + gamma_t) - sqrt(gamma_t))] element by
    element, for the [var] the same call returns. *)
Theorem eval_width_is_log_not_sqrt_log {ext : Externals} (w : world ext) :
  reachable w ->
  sqrt_alpha (self w) = ln (2 / delta) /\
  sqrt_alpha (self w) <> sqrt (ln (2 / delta)) /\
  forall xs mu var phi w',
    eval xs w = Some (mu, var, phi, w') ->
    phi = arr_map (fun v => ln (2 / delta) *
                            (sqrt (v + gamma_t (self w))
                             - sqrt (gamma_t (self w)))) var.
Proof.
  intros Hr. destruct (reachable_constants w Hr) as [_ Ha].
  unfold init_sqrt_alpha in Ha. rewrite Ha.
  split; [reflexivity | split].
  - pose proof ln_two_over_delta_gt_1 as Hgt.
    pose proof (sqrt_less (ln (2 / delta))). lra.
  - intros xs mu var phi w' H.
    apply eval_inv in H as (ph & _ & _ & -> & _).
    unfold exploration_bonus. rewrite Ha.
    now rewrite !arr_map_arr_map.
Qed.

Lemma demo_world0_reachable : @reachable Demo.ext Demo.world0.
Proof. apply (@reach_init Demo.ext Demo.args 0%nat). reflexivity. Defined.

Lemma eval_width_is_log_not_sqrt_log_witness :
  @reachable Demo.ext Demo.world0 /\
  sqrt_alpha (self Demo.world0) <> sqrt (ln (2 / delta)) /\
  exists mu var phi w',
    @eval Demo.ext (Arr2 1 [[1]]) Demo.world0 = Some (mu, var, phi, w') /\
    phi = Arr1 [ln (2 / delta) * (sqrt (1 + 0) - sqrt 0)].
Proof.
  split; [exact demo_world0_reachable | ].
  destruct (eval_width_is_log_not_sqrt_log Demo.world0 demo_world0_reachable)
    as (_ & Hne & Hphi).
  split; [exact Hne | ].
  do 4 eexists. split; [reflexivity | ].
  erewrite (Hphi (Arr2 1 [[1]])) by reflexivity.
  reflexivity.
Defined.

(** ** The encoding cache of [eval] *)

(** C2.  Once [eval] has run on a batch [xs1] with an empty cache, the
    predictions it returns are those at the encoding of [xs1], and every
    later call, whatever batch [xs2] it is given, returns those same
    predictions again: the cached encoding is used without a look at the
    argument. *)
Theorem eval_reuses_first_encoding {ext : Externals} (w : world ext)
    xs1 mu1 var1 phi1 w1 :
  phis (self w) = None ->
  eval xs1 w = Some (mu1, var1, phi1, w1) ->
  exists ph1,
    encode (self w) xs1 = Some ph1 /\
    blr_predict (blr (self w)) ph1 = Some (mu1, var1) /\
    forall xs2, eval xs2 w1 = Some (mu1, var1, phi1, w1).
Proof.
  intros Hnone H.
  apply eval_inv in H as (ph & Hph & Hpred & -> & ->).
  rewrite Hnone in Hph.
  exists ph. split; [exact Hph | split; [exact Hpred | ]].
  intros xs2. unfold eval. cbn. rewrite Hpred. reflexivity.
Qed.

(** The run [eval([[1.]]); eval([[2.]])] on the demonstration agent: the
    second call returns the mean of the first, which is not the posterior
    mean at the encoding of [[2.]]. *)
Lemma eval_reuses_first_encoding_witness :
  exists mu1 var1 phi1 w1,
    phis (self Demo.world0) = None /\
    @eval Demo.ext (Arr2 1 [[1]]) Demo.world0 = Some (mu1, var1, phi1, w1) /\
    @eval Demo.ext (Arr2 1 [[2]]) w1 = Some (mu1, var1, phi1, w1) /\
    exists ph2 mu2 var2,
      @encode Demo.ext (self w1) (Arr2 1 [[2]]) = Some ph2 /\
      @blr_predict Demo.ext (blr (self w1)) ph2 = Some (mu2, var2) /\
      mu2 <> mu1.
Proof.
  do 4 eexists.
  split; [reflexivity | ].
  assert (E : @eval Demo.ext (Arr2 1 [[1]]) Demo.world0 = Some
                (Arr1 [1 / Rabs (4 * 1) * 1 + (1 / Rabs (4 * 1) * 1 + 0)],
                 Arr1 [1],
                 exploration_bonus init_sqrt_alpha 0 (Arr1 [1]),
                 @mkWorld Demo.ext
                   (set_phis Demo.agent0
                      (Some (Arr2 2 [[1 / Rabs (4 * 1) * 1;
                                      1 / Rabs (4 * 1) * 1]])))
                   0%nat)) by reflexivity.
  split; [exact E | ].
  destruct (eval_reuses_first_encoding Demo.world0 _ _ _ _ _ eq_refl E)
    as (ph1 & _ & _ & Hagain).
  split; [apply Hagain | ].
  do 3 eexists. split; [reflexivity | split; [reflexivity | ]].
  intros Heq. injection Heq as Heq.
  rewrite Rabs_right in Heq by lra. lra.
Defined.

(** ** The objective of [select_optimal] *)

Section Objective.

Context {ext : Externals}.

Lemma map_nth_seq_id (l : list R) :
  map (fun j => nth j l 0) (seq 0 (length l)) = l.
Proof.
  induction l as [| a l IH]; [reflexivity | ].
  cbn [length seq map nth]. rewrite <- seq_shift, map_map.
  cbn [nth]. now rewrite IH.
Qed.

Lemma columns_of_singletons {A : Type} (f : A -> R) (l : list A) :
  columns 1 (map (fun a => [f a]) l) = [map f l].
Proof.
  unfold columns, column. cbn [seq map]. now rewrite map_map.
Qed.

Lemma columns_of_row (phi : list R) :
  columns (length phi) [phi] = map (fun v => [v]) phi.
Proof.
  unfold columns, column. cbn [map].
  rewrite <- (map_nth_seq_id phi) at 2. now rewrite map_map.
Qed.

Lemma dot_nil_l (v : list R) : dot [] v = 0.
Proof. reflexivity. Qed.

Lemma dot_cons (a b : R) (u v : list R) :
  dot (a :: u) (b :: v) = a * b + dot u v.
Proof. reflexivity. Qed.

Lemma dot_map_plus {A : Type} (f g : A -> R) (l : list A) : forall v,
  dot (map (fun j => f j + g j) l) v = dot (map f l) v + dot (map g l) v.
Proof.
  induction l as [| j l IH]; intros [| b v]; cbn [map];
    rewrite ?dot_nil_l, ?dot_cons; try (unfold dot; cbn; lra).
  rewrite IH. lra.
Qed.

Lemma dot_map_scale {A : Type} (a : R) (f : A -> R) (l : list A) : forall v,
  dot (map (fun j => a * f j) l) v = a * dot (map f l) v.
Proof.
  induction l as [| j l IH]; intros [| b v]; cbn [map];
    rewrite ?dot_nil_l, ?dot_cons; try (unfold dot; cbn; lra).
  rewrite IH. lra.
Qed.

Lemma dot_zeros {A : Type} (l : list A) : forall v,
  dot (map (fun _ => 0) l) v = 0.
Proof.
  induction l as [| j l IH]; intros [| b v]; cbn [map];
    rewrite ?dot_nil_l, ?dot_cons; try (unfold dot; cbn; lra).
  rewrite IH. lra.
Qed.

(** The product [(u S) v] computed column by column equals [u (S v)]
    computed row by row. *)
Lemma dot_columns_assoc (K : nat) (S : list (list R)) : forall u v,
  length u = length S ->
  Forall (fun r => length r = K) S ->
  length v = K ->
  dot (map (dot u) (columns K S)) v = dot u (map (fun row => dot row v) S).
Proof.
  induction S as [| r S IH]; intros u v Hu HS Hv.
  - destruct u; [ | discriminate Hu].
    unfold columns. rewrite map_map. cbn [column map dot_nil_l].
    rewrite (map_ext _ (fun _ => 0)) by reflexivity.
    now rewrite dot_zeros.
  - destruct u as [| a u]; [discriminate Hu | ].
    pose proof (Forall_inv HS) as Hr. pose proof (Forall_inv_tail HS) as HS'.
    cbn beta in Hr. injection Hu as Hu.
    cbn [map]. rewrite dot_cons, <- (IH u v Hu HS' Hv).
    unfold columns. rewrite !map_map. cbn [column map].
    rewrite (map_ext (fun j => dot (a :: u) (nth j r 0 :: column j S))
                     (fun j => a * nth j r 0 + dot u (column j S)))
      by (intros; apply dot_cons).
    rewrite dot_map_plus, dot_map_scale.
    rewrite <- Hr at 1. rewrite map_nth_seq_id. reflexivity.
Qed.

End Objective.

Section EncodeShape.

Context {ext : Externals}.

Lemma assign_row_length K v out :
  assign_row K v = Some out -> length out = K.
Proof.
  unfold assign_row.
  destruct (Nat.eqb (length v) K) eqn:E.
  - intros [= <-]. now apply Nat.eqb_eq.
  - destruct (Nat.eqb (length v) 1); [ | discriminate].
    intros [= <-]. apply repeat_length.
Qed.

Lemma encode_rows_shape K ps ls : forall xrows rows,
  encode_rows K ps ls xrows = Some rows ->
  length rows = length xrows /\ Forall (fun r => length r = K) rows.
Proof.
  induction xrows as [| xrow rest IH]; intros rows H; cbn in H.
  - injection H as <-. split; [reflexivity | constructor].
  - bind_inv H. injection H as <-.
    destruct (IH _ eq_refl) as [Hl Hf].
    split; [cbn; now rewrite Hl | ].
    constructor; [eapply assign_row_length; eassumption | exact Hf].
Qed.

(** The encoding of one point is one row of [ssp_dim] entries. *)
Lemma encode_point_shape (ag : SSPAgent ext) (x : list R) a :
  encode ag (reshape_1_infer (Arr1 x)) = Some a ->
  exists phi, a = Arr2 (Z.to_nat (ssp_dim ag)) [phi] /\
              length phi = Z.to_nat (ssp_dim ag).
Proof.
  unfold encode, _encode, reshape_1_infer. cbn [ravel].
  destruct (ptrs ag) as [? | ? | c ps]; try discriminate.
  destruct (ssp_dim ag <? 0)%Z; [discriminate | ].
  intros H. bind_inv H. injection H as <-.
  apply encode_rows_shape in E as [Hl Hf].
  destruct l as [| phi [| ? ?]]; try discriminate Hl.
  exists phi. split; [reflexivity | exact (Forall_inv Hf)].
Qed.

End EncodeShape.

(** C3.  At a point [x] whose encoding is the row [phi], with posterior mean
    [mv] (held as a vector or as a column), posterior covariance [Srows],
    accumulator [gamma_t] and noise term [blr.beta] as they are when
    [select_optimal] is called, the objective handed to the minimiser is the
    one-element array holding
    [-(phi . mv + sqrt(gamma_t + beta + phi . Srows . phi^T) - sqrt(gamma_t))]. *)
Theorem objective_matches_spec {ext : Externals} (ag : SSPAgent ext)
    (x phi mv : list R) (K : nat) (Srows : list (list R)) :
  encode ag (reshape_1_infer (Arr1 x)) = Some (Arr2 K [phi]) ->
  blr_m (blr ag) = Arr1 mv \/ blr_m (blr ag) = Arr2 1 (map (fun v => [v]) mv) ->
  length mv = K ->
  blr_S (blr ag) = Arr2 K Srows ->
  length Srows = K ->
  Forall (fun r => length r = K) Srows ->
  objective ag x =
    Some (Arr1 [spec_objective phi mv Srows (gamma_t ag) (blr_beta (blr ag))]).
Proof.
  intros Henc Hm Hmv HS HSl HSr.
  destruct (encode_point_shape ag x _ Henc) as (phi' & Heq & Hphi').
  injection Heq as HK <-. rewrite <- HK in Hphi'. clear HK.
  unfold objective, optim_func. rewrite Henc, HS. cbn [obind].
  assert (Hval : exists val,
             matmul (Arr2 K [phi]) (blr_m (blr ag)) = Some val /\
             ravel val = [dot phi mv] /\ atleast_2d val = (1%nat, [[dot phi mv]])).
  { destruct Hm as [-> | ->]; cbn [matmul].
    - rewrite Hmv, Nat.eqb_refl. eexists. repeat split.
    - rewrite length_map, Hmv, Nat.eqb_refl.
      rewrite (columns_of_singletons (fun v => v)), map_id.
      eexists. repeat split. }
  destruct Hval as (val & -> & Hrav & H2d). cbn [obind].
  cbn [matmul transpose length]. rewrite HSl, Nat.eqb_refl. cbn [obind map].
  assert (Hc : length (columns K [phi]) = K)
    by (unfold columns; now rewrite length_map, length_seq).
  cbn [matmul]. rewrite Hc, Nat.eqb_refl. cbn [obind map arr_map].
  rewrite <- Hphi' at 2. rewrite columns_of_row.
  rewrite (columns_of_singletons (fun v => v)), map_id. cbn [map].
  rewrite dot_columns_assoc by congruence.
  assert (Hsum : forall b,
             arr_binop Rplus val (Arr2 1 [[b]]) =
             Some (Arr2 1 [[dot phi mv + b]])).
  { intros b. destruct val as [v0 | v | c rows]; cbn in Hrav, H2d.
    - injection Hrav as ->. reflexivity.
    - subst v. reflexivity.
    - injection H2d as -> ->. reflexivity. }
  rewrite Hsum. cbn [obind arr_map map flatten ravel concat app].
  unfold spec_objective, flatten. cbn [ravel concat app].
  do 3 f_equal. lra.
Qed.

Lemma objective_matches_spec_witness :
  @encode Demo.ext Demo.agent0 (reshape_1_infer (Arr1 [1])) =
    Some (Arr2 2 [[1 / Rabs (4 * 1) * 1; 1 / Rabs (4 * 1) * 1]]) /\
  @objective Demo.ext Demo.agent0 [1] =
    Some (Arr1 [spec_objective [1 / Rabs (4 * 1) * 1; 1 / Rabs (4 * 1) * 1]
                               [0; 0] [[0; 0]; [0; 0]] 0 1]).
Proof.
  split; [reflexivity | ].
  apply (@objective_matches_spec Demo.ext Demo.agent0 [1]
           [1 / Rabs (4 * 1) * 1; 1 / Rabs (4 * 1) * 1] [0; 0] 2
           [[0; 0]; [0; 0]]).
  - reflexivity.
  - right. reflexivity.
  - reflexivity.
  - reflexivity.
  - reflexivity.
  - repeat constructor.
Defined.

(** ** The restarts of [select_optimal] *)

Section Restarts.

Context {ext : Externals}.

Lemma draw_starts_length n bounds : forall g,
  length (fst (draw_starts n bounds g)) = n.
Proof.
  induction n as [| n IH]; intros g; cbn; [reflexivity | ].
  destruct (np_random_uniform _ _ _ _) as [x0 g'].
  specialize (IH g'). destruct (draw_starts n bounds g'). cbn in *.
  now rewrite IH.
Qed.

(** The loop, when every minimisation returns: one result per start, in
    order, and only the generator has advanced. *)
Lemma restart_loop_run n f bounds : forall solns vals (w : world ext) results,
  Forall2 (fun x0 r => scipy_minimize f x0 (Some bounds) = Some r)
          (fst (draw_starts n bounds (np_random w))) results ->
  restart_loop n f bounds solns vals w =
    Some (solns ++ map res_x results,
          vals ++ map (fun r => - res_fun r) results,
          mkWorld (self w) (snd (draw_starts n bounds (np_random w)))).
Proof.
  induction n as [| n IH]; intros solns vals w results H; cbn in *.
  - inversion H; subst. cbn. rewrite !app_nil_r. now destruct w.
  - destruct (np_random_uniform _ _ _ _) as [x0 g'].
    destruct (draw_starts n bounds g') as [rest g''] eqn:Ed.
    cbn in H. inversion H as [| ? r ? rs Hmin Hrest]; subst.
    rewrite Hmin. cbn [obind].
    rewrite (IH _ _ (mkWorld (self w) g') rs); cbn [np_random self].
    + rewrite Ed. cbn. now rewrite <- !app_assoc.
    + now rewrite Ed.
Qed.

(** Conversely, a loop that ended made exactly these calls. *)
Lemma restart_loop_inv n f bounds :
  forall solns vals (w : world ext) solns' vals' w',
  restart_loop n f bounds solns vals w = Some (solns', vals', w') ->
  exists results,
    Forall2 (fun x0 r => scipy_minimize f x0 (Some bounds) = Some r)
            (fst (draw_starts n bounds (np_random w))) results /\
    solns' = solns ++ map res_x results /\
    vals' = vals ++ map (fun r => - res_fun r) results /\
    w' = mkWorld (self w) (snd (draw_starts n bounds (np_random w))).
Proof.
  induction n as [| n IH]; intros solns vals w solns' vals' w' H; cbn in *.
  - injection H as <- <- <-. exists []. cbn. rewrite !app_nil_r.
    repeat split; [constructor | now destruct w].
  - destruct (np_random_uniform _ _ _ _) as [x0 g'].
    destruct (scipy_minimize f x0 (Some bounds)) as [r |] eqn:Hmin;
      [cbn [obind] in H | discriminate H].
    apply IH in H as (rs & Hrs & -> & -> & ->). cbn [np_random self] in *.
    destruct (draw_starts n bounds g') as [rest g''].
    exists (r :: rs). cbn. rewrite <- !app_assoc.
    repeat split. constructor; assumption.
Qed.

Lemma argmax_from_spec : forall l pre best_i best,
  nth_error pre best_i = Some best ->
  Forall (fun v => v <= best) pre ->
  exists b,
    nth_error (pre ++ l) (argmax_from best_i best (length pre) l) = Some b /\
    Forall (fun v => v <= b) (pre ++ l).
Proof.
  induction l as [| v l IH]; intros pre best_i best Hn Hf; cbn.
  - exists best. rewrite app_nil_r. split; assumption.
  - replace (pre ++ v :: l) with ((pre ++ [v]) ++ l)
      by (now rewrite <- app_assoc).
    replace (S (length pre)) with (length (pre ++ [v]))
      by (rewrite length_app; cbn; lia).
    destruct (Rlt_dec best v) as [Hlt | Hge].
    + apply IH.
      * rewrite nth_error_app2 by lia.
        now rewrite Nat.sub_diag.
      * apply Forall_app. split.
        -- eapply Forall_impl; [ | exact Hf]. cbn. intros; lra.
        -- constructor; [lra | constructor].
    + apply IH.
      * rewrite nth_error_app1; [exact Hn | ].
        apply nth_error_Some. congruence.
      * apply Forall_app. split; [exact Hf | ].
        constructor; [lra | constructor].
Qed.

Lemma np_argmax_spec (l : list R) :
  l <> [] ->
  exists k b, np_argmax l = Some k /\ nth_error l k = Some b /\
              Forall (fun v => v <= b) l.
Proof.
  destruct l as [| v l]; [congruence | intros _].
  destruct (argmax_from_spec l [v] 0 v eq_refl) as (b & Hn & Hf).
  - constructor; [lra | constructor].
  - exists (argmax_from 0 v 1 l), b. repeat split; assumption.
Qed.

(** A call of [select_optimal] all of whose minimisations return. *)
Lemma select_optimal_run bounds (w : world ext) results :
  num_restarts (self w) <> 0%nat ->
  Forall2 (fun x0 r =>
             scipy_minimize (objective (self w)) x0 (Some bounds) = Some r)
          (fst (draw_starts (num_restarts (self w)) bounds (np_random w)))
          results ->
  exists i r,
    nth_error results i = Some r /\
    Forall (fun r' => - res_fun r' <= - res_fun r) results /\
    select_optimal bounds w =
      Some (reshape_1_infer (Arr1 (res_x r)), - res_fun r, 0%Z,
            mkWorld (self w)
              (snd (draw_starts (num_restarts (self w)) bounds
                                (np_random w)))).
Proof.
  intros Hn H.
  assert (Hlen : length results = num_restarts (self w)).
  { apply Forall2_length in H. now rewrite draw_starts_length in H. }
  unfold select_optimal.
  rewrite (restart_loop_run _ _ _ [] [] w results H). cbn [obind app].
  destruct (np_argmax_spec (map (fun r => - res_fun r) results))
    as (k & b & -> & Hk & Hmax).
  { destruct results; [cbn in Hlen; congruence | discriminate]. }
  cbn [obind]. rewrite Hk.
  rewrite nth_error_map in Hk.
  destruct (nth_error results k) as [r |] eqn:Hr; [ | discriminate Hk].
  injection Hk as <-.
  exists k, r. split; [exact Hr | split].
  - now rewrite Forall_map in Hmax.
  - rewrite nth_error_map, Hr. reflexivity.
Qed.

Lemma minimize_all_return (f : list R -> option ndarray) bounds :
  forall starts,
  Forall (fun x0 => scipy_minimize f x0 (Some bounds) <> None) starts ->
  exists results,
    Forall2 (fun x0 r => scipy_minimize f x0 (Some bounds) = Some r)
            starts results.
Proof.
  induction starts as [| x0 starts IH]; intros H.
  - exists []. constructor.
  - inversion H as [| ? ? Hx Hrest]; subst.
    destruct (IH Hrest) as [rs Hrs].
    destruct (scipy_minimize f x0 (Some bounds)) as [r |] eqn:E;
      [ | congruence].
    exists (r :: rs). constructor; assumption.
Qed.

End Restarts.

(** The demonstration minimiser on the box [[(0., 1.)]]. *)
Lemma demo_minimize_in_box01 (x0 : list R) :
  @scipy_minimize Demo.ext (objective (self Demo.world0)) x0
                  (Some Demo.bounds01) = Some Demo.result0.
Proof.
  cbn [scipy_minimize Demo.ext Demo.collaborators].
  unfold Demo.corner_minimize, Demo.feasible, Demo.bounds01.
  cbn [forallb fst snd].
  destruct (Rle_dec 0 1) as [_ | Hn]; [ | exfalso; apply Hn; lra].
  reflexivity.
Qed.

Lemma demo_restarts_in_box01 :
  Forall2 (fun x0 r =>
             @scipy_minimize Demo.ext (objective (self Demo.world0)) x0
                             (Some Demo.bounds01) = Some r)
          (fst (@draw_starts Demo.ext 10 Demo.bounds01 (np_random Demo.world0)))
          (repeat Demo.result0 10).
Proof.
  generalize (np_random Demo.world0).
  generalize 10%nat as n.
  induction n as [| n IH]; intros g; cbn [draw_starts repeat].
  - constructor.
  - destruct (np_random_uniform _ _ _ _) as [x0 g'].
    specialize (IH g'). destruct (draw_starts n Demo.bounds01 g').
    constructor; [apply demo_minimize_in_box01 | exact IH].
Qed.

(** C4.  From a state the agent can reach, when the minimiser returns from
    each of the 10 starting points drawn in succession by
    [np.random.uniform] between the lower and the upper bounds,
    [select_optimal] makes exactly these 10 minimisations of the objective
    under [bounds], and returns the point and the negated objective value of
    one of them whose negated objective value is the largest of the 10. *)
Theorem select_optimal_best_of_ten_restarts {ext : Externals}
    (w : world ext) (bounds : list (R * R)) (results : list OptimizeResult) :
  reachable w ->
  Forall2 (fun x0 r =>
             scipy_minimize (objective (self w)) x0 (Some bounds) = Some r)
          (fst (draw_starts 10 bounds (np_random w))) results ->
  num_restarts (self w) = 10%nat /\
  length results = 10%nat /\
  exists i r,
    nth_error results i = Some r /\
    Forall (fun r' => - res_fun r' <= - res_fun r) results /\
    select_optimal bounds w =
      Some (reshape_1_infer (Arr1 (res_x r)), - res_fun r, 0%Z,
            mkWorld (self w) (snd (draw_starts 10 bounds (np_random w)))).
Proof.
  intros Hr H.
  destruct (reachable_constants w Hr) as [H10 _].
  split; [exact H10 | split].
  - apply Forall2_length in H. now rewrite draw_starts_length in H.
  - rewrite <- H10 in H |- *.
    apply select_optimal_run; [rewrite H10; discriminate | exact H].
Qed.

Lemma select_optimal_best_of_ten_restarts_witness :
  @reachable Demo.ext Demo.world0 /\
  exists i r,
    nth_error (repeat Demo.result0 10) i = Some r /\
    @select_optimal Demo.ext Demo.bounds01 Demo.world0 =
      Some (reshape_1_infer (Arr1 (res_x r)), - res_fun r, 0%Z,
            @mkWorld Demo.ext Demo.agent0 10%nat).
Proof.
  split; [exact demo_world0_reachable | ].
  destruct (select_optimal_best_of_ten_restarts Demo.world0 Demo.bounds01
              (repeat Demo.result0 10) demo_world0_reachable
              demo_restarts_in_box01)
    as (_ & _ & i & r & Hi & _ & Hsel).
  exists i, r. split; [exact Hi | exact Hsel].
Defined.

Lemma Forall2_pick_right {A B : Type} (P : A -> B -> Prop) (l : list A) :
  forall l' y, Forall2 P l l' -> In y l' -> exists x, In x l /\ P x y.
Proof.
  induction l as [| a l IH]; intros l' y H Hy; inversion H; subst.
  - destruct Hy.
  - destruct Hy as [<- | Hy].
    + exists a. split; [now left | assumption].
    + destruct (IH _ _ H4 Hy) as (x & Hx & HP).
      exists x. split; [now right | assumption].
Qed.

(** C8.  From a state the agent can reach, with a minimiser that answers
    within the box it is given and that returns from each of the starting
    points drawn, [select_optimal(bounds)] returns a point every coordinate
    of which lies within its [(lower, upper)] pair. *)
Theorem select_optimal_within_bounds {ext : Externals}
    (w : world ext) (bounds : list (R * R)) :
  reachable w ->
  (forall f x0 b r,
      scipy_minimize f x0 (Some b) = Some r -> in_box b (res_x r)) ->
  Forall (fun x0 =>
            scipy_minimize (objective (self w)) x0 (Some bounds) <> None)
         (fst (draw_starts 10 bounds (np_random w))) ->
  exists x score w',
    select_optimal bounds w = Some (Arr2 (length x) [x], score, 0%Z, w') /\
    in_box bounds x.
Proof.
  intros Hr Hbox Hret.
  destruct (reachable_constants w Hr) as [H10 _].
  destruct (minimize_all_return _ _ _ Hret) as [results Hres].
  rewrite <- H10 in Hres.
  destruct (select_optimal_run bounds w results) as (i & r & Hi & _ & Hsel);
    [rewrite H10; discriminate | exact Hres | ].
  exists (res_x r), (- res_fun r). eexists. split; [exact Hsel | ].
  apply nth_error_In in Hi.
  destruct (Forall2_pick_right _ _ _ _ Hres Hi) as (x0 & _ & Hmin).
  eapply Hbox. exact Hmin.
Qed.

Lemma demo_feasible_in_box (b : list (R * R)) :
  Demo.feasible b = true -> in_box b (map fst b).
Proof.
  unfold in_box, Demo.feasible.
  induction b as [| [lo hi] b IH]; cbn [forallb map fst snd]; intros H.
  - constructor.
  - apply andb_prop in H as [Hle Hrest].
    destruct (Rle_dec lo hi) as [Hlohi | ]; [ | discriminate Hle].
    constructor; [cbn; lra | exact (IH Hrest)].
Qed.

Lemma demo_minimize_respects_box :
  forall f x0 b r,
    @scipy_minimize Demo.ext f x0 (Some b) = Some r -> in_box b (res_x r).
Proof.
  intros f x0 b r. cbn [scipy_minimize Demo.ext Demo.collaborators].
  unfold Demo.corner_minimize.
  destruct (Demo.feasible b) eqn:Hf; [ | discriminate].
  intros H. bind_inv H. injection H as <-.
  cbn [res_x]. now apply demo_feasible_in_box.
Qed.

Lemma demo_restarts_return :
  Forall (fun x0 =>
            @scipy_minimize Demo.ext (objective (self Demo.world0)) x0
                            (Some Demo.bounds01) <> None)
         (fst (@draw_starts Demo.ext 10 Demo.bounds01
                            (np_random Demo.world0))).
Proof.
  apply Forall_forall. intros x0 _.
  rewrite demo_minimize_in_box01. discriminate.
Qed.

Lemma select_optimal_within_bounds_witness :
  @reachable Demo.ext Demo.world0 /\
  exists x score w',
    @select_optimal Demo.ext Demo.bounds01 Demo.world0 =
      Some (Arr2 (length x) [x], score, 0%Z, w') /\
    in_box Demo.bounds01 x.
Proof.
  split; [exact demo_world0_reachable | ].
  exact (select_optimal_within_bounds Demo.world0 Demo.bounds01
           demo_world0_reachable demo_minimize_respects_box
           demo_restarts_return).
Defined.

(** C9.  A call of [select_optimal] that returns leaves the instance as it
    was: the posterior mean, the posterior covariance, the noise term and
    the accumulator are those of before the call.  Every one of its
    [num_restarts] minimisations was given the one objective built from the
    values these four had when the call began. *)
Theorem select_optimal_leaves_agent_unchanged {ext : Externals}
    (bounds : list (R * R)) (w : world ext) out w' :
  select_optimal bounds w = Some (out, w') ->
  self w' = self w /\
  blr_m (blr (self w')) = blr_m (blr (self w)) /\
  blr_S (blr (self w')) = blr_S (blr (self w)) /\
  blr_beta (blr (self w')) = blr_beta (blr (self w)) /\
  gamma_t (self w') = gamma_t (self w) /\
  exists results,
    length results = num_restarts (self w) /\
    Forall2 (fun x0 r =>
               scipy_minimize
                 (optim_func (self w) (blr_m (blr (self w)))
                             (blr_S (blr (self w))) (gamma_t (self w))
                             (blr_beta (blr (self w))))
                 x0 (Some bounds) = Some r)
            (fst (draw_starts (num_restarts (self w)) bounds (np_random w)))
            results.
Proof.
  intros H.
  pose proof (select_optimal_self _ _ _ _ H) as Hself.
  rewrite Hself. repeat (split; [reflexivity | ]).
  unfold select_optimal in H.
  destruct (restart_loop _ _ _ _ _ _) as [[[solns vals] w1] |] eqn:Hloop;
    [ | discriminate H].
  apply restart_loop_inv in Hloop as (results & Hres & _).
  exists results. split; [ | exact Hres].
  apply Forall2_length in Hres. now rewrite draw_starts_length in Hres.
Qed.

Lemma select_optimal_leaves_agent_unchanged_witness :
  exists out w',
    @select_optimal Demo.ext Demo.bounds01 Demo.world0 = Some (out, w') /\
    self w' = Demo.agent0 /\
    gamma_t (self w') = 0.
Proof.
  destruct (@select_optimal_run Demo.ext Demo.bounds01 Demo.world0
              (repeat Demo.result0 10))
    as (i & r & _ & _ & Hsel);
    [discriminate | exact demo_restarts_in_box01 | ].
  do 2 eexists. split; [exact Hsel | ].
  destruct (select_optimal_leaves_agent_unchanged _ _ _ _ Hsel)
    as (Hself & _ & _ & _ & Hgamma & _).
  split; [exact Hself | exact Hgamma].
Defined.

(** ** [update] and the exploration accumulator *)

Lemma run_updates_gamma {ext : Externals} (calls : list update_call) :
  forall (w w' : world ext),
  run_updates calls w = Some w' ->
  gamma_t (self w') =
    gamma_t (self w) + fold_right Rplus 0 (map call_sigma calls).
Proof.
  induction calls as [| c calls IH]; intros w w' H; cbn in H.
  - injection H as <-. cbn. lra.
  - bind_inv H. apply IH in H. rewrite H.
    apply update_inv in E as [b ->]. cbn. lra.
Qed.

Lemma sum_nonneg (l : list R) :
  Forall (fun s => 0 <= s) l -> 0 <= fold_right Rplus 0 l.
Proof. induction 1; cbn; lra. Qed.

(** C7.  A call [update(x_t, y_t, sigma_t)] that returns leaves
    [gamma_t + sigma_t] in [gamma_t]; over a sequence of [update] calls
    [gamma_t] grows by the sum of their [sigma_t], and when every [sigma_t]
    is non-negative it is no smaller after the sequence than before. *)
Theorem update_accumulates_sigma {ext : Externals} :
  (forall x y s (w w' : world ext),
      update x y s w = Some w' ->
      gamma_t (self w') = gamma_t (self w) + s) /\
  (forall calls (w w' : world ext),
      run_updates calls w = Some w' ->
      gamma_t (self w') =
        gamma_t (self w) + fold_right Rplus 0 (map call_sigma calls)) /\
  (forall calls (w w' : world ext),
      Forall (fun c => 0 <= call_sigma c) calls ->
      run_updates calls w = Some w' ->
      gamma_t (self w) <= gamma_t (self w')).
Proof.
  split; [ | split].
  - intros x y s w w' H. apply update_inv in H as [b ->]. reflexivity.
  - intros calls w w'. apply run_updates_gamma.
  - intros calls w w' Hs H. rewrite (run_updates_gamma _ _ _ H).
    assert (0 <= fold_right Rplus 0 (map call_sigma calls)); [ | lra].
    apply sum_nonneg. now rewrite Forall_map.
Qed.

Lemma update_accumulates_sigma_witness :
  exists w1 w2,
    @update Demo.ext (Arr1 [1]) (PyArray (Arr1 [1])) 0.5 Demo.world0
      = Some w1 /\
    gamma_t (self w1) = 0 + 0.5 /\
    @run_updates Demo.ext
      [mkCall (Arr1 [1]) (PyArray (Arr1 [1])) 0.5;
       mkCall (Arr2 1 [[2]; [3]]) (PyArray (Arr1 [1; 2])) 0]
      Demo.world0 = Some w2 /\
    gamma_t (self Demo.world0) <= gamma_t (self w2).
Proof.
  destruct (@update_accumulates_sigma Demo.ext) as (Hone & _ & Hmono).
  do 2 eexists.
  split; [reflexivity | ].
  split; [exact (Hone (Arr1 [1]) (PyArray (Arr1 [1])) 0.5 Demo.world0 _
                      eq_refl) | ].
  split; [reflexivity | ].
  refine (Hmono [mkCall (Arr1 [1]) (PyArray (Arr1 [1])) 0.5;
                 mkCall (Arr2 1 [[2]; [3]]) (PyArray (Arr1 [1; 2])) 0]
                Demo.world0 _ _ eq_refl).
  repeat constructor; cbn; lra.
Defined.

(** C10.  With a 1-d [x_t], [update] raises when [y_t] is a float or a 0-d
    array; a call that returns was given an array [y_t] whose shape has an
    entry 0, equal to the number of its elements; and a 1-d [y_t] makes the
    call the same as the one on the single row [x_t] with the single row
    [y_t]. *)
Theorem update_single_sample_needs_array_target {ext : Externals}
    (v : list R) (s : R) (w : world ext) :
  (forall r, update (Arr1 v) (PyFloat r) s w = None) /\
  (forall r, update (Arr1 v) (PyArray (Arr0 r)) s w = None) /\
  (forall y w',
      update (Arr1 v) y s w = Some w' ->
      exists a n, y = PyArray a /\ nth_error (shape a) 0 = Some n /\
                  length (ravel a) = n) /\
  (forall yv,
      update (Arr1 v) (PyArray (Arr1 yv)) s w =
      update (Arr2 (length v) [v]) (PyArray (Arr2 (length yv) [yv])) s w).
Proof.
  assert (Hx : reshape_1 (Arr1 v) (length v) = Some (Arr2 (length v) [v]))
    by (unfold reshape_1; cbn [ravel]; now rewrite Nat.eqb_refl).
  repeat split.
  - intros r. unfold update. cbn [shape length Nat.ltb Nat.leb nth_error obind].
    rewrite Hx. reflexivity.
  - intros r. unfold update. cbn [shape length Nat.ltb Nat.leb nth_error obind].
    rewrite Hx. reflexivity.
  - intros y w'. unfold update.
    cbn [shape length Nat.ltb Nat.leb nth_error obind]. rewrite Hx.
    cbn [obind]. intros H.
    destruct (reshape_target y) as [yv |] eqn:Hy; [ | discriminate H].
    destruct y as [r | a]; [discriminate Hy | ].
    cbn [reshape_target] in Hy.
    destruct (nth_error (shape a) 0) as [n |] eqn:Hn; [ | discriminate Hy].
    cbn [obind] in Hy. unfold reshape_1 in Hy.
    destruct (Nat.eqb (length (ravel a)) n) eqn:Hlen;
      [ | discriminate Hy].
    exists a, n.
    split; [reflexivity | split; [exact Hn | now apply Nat.eqb_eq]].
  - intros yv. unfold update.
    cbn [shape length Nat.ltb Nat.leb nth_error obind]. rewrite Hx.
    cbn [obind reshape_target shape nth_error].
    unfold reshape_1. cbn [ravel]. rewrite Nat.eqb_refl. reflexivity.
Qed.

Lemma update_single_sample_needs_array_target_witness :
  exists w',
    @update Demo.ext (Arr1 [1]) (PyArray (Arr1 [1])) 0.5 Demo.world0
      = Some w' /\
    @update Demo.ext (Arr1 [1]) (PyFloat 1) 0.5 Demo.world0 = None /\
    exists a n, PyArray (Arr1 [1]) = PyArray a /\
                nth_error (shape a) 0 = Some n /\ length (ravel a) = n.
Proof.
  destruct (@update_single_sample_needs_array_target Demo.ext [1] 0.5
              Demo.world0) as (Hfloat & _ & Harr & _).
  eexists. split; [reflexivity | ].
  split; [apply Hfloat | ].
  eapply Harr. reflexivity.
Defined.

(** ** The back-solved basis of the constructor *)

(** *** float64 rounding *)

Lemma pow2_pos (e : Z) : 0 < powerRZ 2 e.
Proof. apply powerRZ_lt. lra. Qed.

Lemma pow2_nonneg_IZR (e : Z) : (0 <= e)%Z -> powerRZ 2 e = IZR (2 ^ e).
Proof.
  intros He. rewrite <- (Z2Nat.id e He) at 1 2.
  rewrite <- pow_powerRZ. apply (pow_IZR 2).
Qed.

Lemma pow2_add (a b : Z) : powerRZ 2 (a + b) = powerRZ 2 a * powerRZ 2 b.
Proof. apply powerRZ_add. lra. Qed.

Lemma pow2_le (a b : Z) : (a <= b)%Z -> powerRZ 2 a <= powerRZ 2 b.
Proof.
  intros H. replace b with (a + (b - a))%Z by lia. rewrite pow2_add.
  rewrite (pow2_nonneg_IZR (b - a)) by lia.
  assert (1 <= IZR (2 ^ (b - a))).
  { apply IZR_le. pose proof (Z.pow_pos_nonneg 2 (b - a)). lia. }
  pose proof (pow2_pos a). nra.
Qed.

Lemma pow2_lt (a b : Z) : (a < b)%Z -> powerRZ 2 a < powerRZ 2 b.
Proof.
  intros H. replace b with (a + (b - a))%Z by lia. rewrite pow2_add.
  rewrite (pow2_nonneg_IZR (b - a)) by lia.
  assert (2 <= IZR (2 ^ (b - a))).
  { apply IZR_le. replace (b - a)%Z with (Z.succ (b - a - 1)) by lia.
    rewrite Z.pow_succ_r by lia.
    pose proof (Z.pow_pos_nonneg 2 (b - a - 1)). lia. }
  pose proof (pow2_pos a). nra.
Qed.

Lemma pow2_lt_inv (a b : Z) : powerRZ 2 a < powerRZ 2 b -> (a < b)%Z.
Proof.
  intros H. destruct (Z.lt_ge_cases a b) as [Hlt | Hge]; [exact Hlt | ].
  pose proof (pow2_le b a Hge). lra.
Qed.

Lemma Rabs_le_bounds (a b : R) : Rabs a <= b -> - b <= a <= b.
Proof. unfold Rabs. destruct (Rcase_abs a); lra. Qed.

(** The integer part *)

Lemma Int_part_ge (y : R) (z : Z) : IZR z <= y -> (z <= Int_part y)%Z.
Proof.
  intros H. destruct (base_Int_part y) as [_ H2].
  assert (H0 : IZR z < IZR (Int_part y + 1)) by (rewrite plus_IZR; lra).
  apply lt_IZR in H0. lia.
Qed.

Lemma Int_part_lt (y : R) (z : Z) : y < IZR z -> (Int_part y < z)%Z.
Proof.
  intros H. destruct (base_Int_part y) as [H1 _].
  apply lt_IZR. lra.
Qed.

Lemma Int_part_IZR (z : Z) : Int_part (IZR z) = z.
Proof. symmetry. apply Int_part_spec. lra. Qed.

(** The exponent *)

Lemma float64_exponent_spec (x : R) :
  powerRZ 2 (-1022) <= x ->
  powerRZ 2 (float64_exponent x) <= x < powerRZ 2 (float64_exponent x + 1).
Proof.
  intros Hx. unfold float64_exponent.
  set (N := Int_part (x * 2 ^ 1074)).
  assert (HP : 2 ^ 1074 = powerRZ 2 1074) by (apply (pow_powerRZ 2 1074)).
  pose proof (pow2_pos 1074) as HPpos.
  destruct (base_Int_part (x * 2 ^ 1074)) as [HN1 HN2]. fold N in HN1, HN2.
  assert (Hx52 : IZR (2 ^ 52) <= x * 2 ^ 1074).
  { rewrite <- pow2_nonneg_IZR by lia.
    rewrite HP. replace 52%Z with (-1022 + 1074)%Z by lia. rewrite pow2_add.
    apply Rmult_le_compat_r; lra. }
  assert (HN52 : (2 ^ 52 <= N)%Z) by (apply Int_part_ge; exact Hx52).
  assert (HNpos : (0 < N)%Z).
  { pose proof (Z.pow_pos_nonneg 2 52). lia. }
  assert (HL : (52 <= Z.log2 N)%Z).
  { apply Z.log2_le_pow2; assumption. }
  rewrite Z.max_r by lia.
  destruct (Z.log2_spec N HNpos) as [HL1 HL2].
  set (L := Z.log2 N) in *.
  assert (Hsplit : forall a, powerRZ 2 (a - 1074) * 2 ^ 1074 = powerRZ 2 a).
  { intros a. rewrite HP, <- pow2_add. f_equal. lia. }
  split.
  - apply Rmult_le_reg_r with (2 ^ 1074); [lra | ].
    rewrite Hsplit, pow2_nonneg_IZR by lia.
    apply IZR_le in HL1. lra.
  - apply Rmult_lt_reg_r with (2 ^ 1074); [lra | ].
    replace (L - 1074 + 1)%Z with (Z.succ L - 1074)%Z by lia.
    rewrite Hsplit, pow2_nonneg_IZR by lia.
    assert (H : IZR (N + 1) <= IZR (2 ^ Z.succ L)) by (apply IZR_le; lia).
    rewrite plus_IZR in H. lra.
Qed.

Lemma float64_exponent_unique (x : R) (e : Z) :
  (-1022 <= e)%Z ->
  powerRZ 2 e <= x < powerRZ 2 (e + 1) ->
  float64_exponent x = e.
Proof.
  intros He [H1 H2].
  assert (Hx : powerRZ 2 (-1022) <= x).
  { pose proof (pow2_le (-1022) e He). lra. }
  destruct (float64_exponent_spec x Hx) as [E1 E2].
  assert (float64_exponent x < e + 1)%Z by (apply pow2_lt_inv; lra).
  assert (e < float64_exponent x + 1)%Z by (apply pow2_lt_inv; lra).
  lia.
Qed.

(** Rounding to an integer *)

Lemma round_half_even_range (m : R) :
  (Int_part m <= round_half_even m <= Int_part m + 1)%Z /\
  Rabs (IZR (round_half_even m) - m) <= 1 / 2.
Proof.
  unfold round_half_even.
  destruct (base_Int_part m) as [H1 H2].
  destruct (Rlt_dec (m - IZR (Int_part m)) (1 / 2)) as [Hlo | Hlo].
  - split; [lia | ]. apply Rabs_le. lra.
  - destruct (Rlt_dec (1 / 2) (m - IZR (Int_part m))) as [Hhi | Hhi].
    + split; [lia | ]. rewrite plus_IZR. apply Rabs_le. lra.
    + destruct (Z.even (Int_part m)).
      * split; [lia | ]. apply Rabs_le. lra.
      * split; [lia | ]. rewrite plus_IZR. apply Rabs_le. lra.
Qed.

Lemma round_half_even_ge (m : R) (z : Z) :
  IZR z <= m -> (z <= round_half_even m)%Z.
Proof.
  intros H. pose proof (Int_part_ge m z H).
  destruct (round_half_even_range m) as [[? ?] _]. lia.
Qed.

Lemma round_half_even_le (m : R) (z : Z) :
  m <= IZR z -> (round_half_even m <= z)%Z.
Proof.
  intros H.
  destruct (Req_dec m (IZR z)) as [-> | Hne].
  - unfold round_half_even. rewrite Int_part_IZR.
    destruct (Rlt_dec (IZR z - IZR z) (1 / 2)) as [_ | Hn]; [lia | ].
    exfalso. apply Hn. lra.
  - assert (Int_part m < z)%Z by (apply Int_part_lt; lra).
    destruct (round_half_even_range m) as [[? ?] _]. lia.
Qed.

(** The rounding of a positive real *)

Lemma float64_pos (x : R) :
  0 < x ->
  float64 x = float64_ulp x * IZR (round_half_even (x / float64_ulp x)).
Proof.
  intros Hx. unfold float64.
  destruct (Rlt_dec 0 x) as [_ | Hn]; [reflexivity | contradiction].
Qed.

Lemma float64_0 : float64 0 = 0.
Proof.
  unfold float64.
  destruct (Rlt_dec 0 0) as [H | _]; [lra | reflexivity].
Qed.

Lemma float64_ulp_pos (x : R) : 0 < float64_ulp x.
Proof. apply pow2_pos. Qed.

(** The relative error of one rounding is at most [2^-53]. *)
Lemma float64_error (x : R) :
  powerRZ 2 (-1022) <= x ->
  Rabs (float64 x - x) <= x / 2 ^ 53.
Proof.
  intros Hx.
  assert (Hpos : 0 < x) by (pose proof (pow2_pos (-1022)); lra).
  rewrite (float64_pos x Hpos).
  pose proof (float64_ulp_pos x) as Hu.
  destruct (round_half_even_range (x / float64_ulp x)) as [_ Hr].
  destruct (float64_exponent_spec x Hx) as [He _].
  assert (Hulp : float64_ulp x * 2 ^ 52 <= x).
  { unfold float64_ulp. rewrite (pow_powerRZ 2 52), <- pow2_add.
    replace (float64_exponent x - 52 + Z.of_nat 52)%Z
      with (float64_exponent x) by lia.
    exact He. }
  set (u := float64_ulp x) in *.
  set (n := IZR (round_half_even (x / u))) in *.
  apply Rabs_le_bounds in Hr.
  assert (Hd : u * (n - x / u) = u * n - x) by (field; lra).
  assert (H52pos : 0 < 2 ^ 52) by (apply pow_lt; lra).
  assert (H53 : 2 ^ 53 = 2 * 2 ^ 52) by reflexivity.
  assert (Hb : - (u / 2) <= u * n - x <= u / 2).
  { rewrite <- Hd. split; nra. }
  apply Rabs_le. rewrite H53.
  assert (u / 2 <= x / (2 * 2 ^ 52)).
  { apply Rmult_le_reg_r with (2 * 2 ^ 52); [lra | ].
    replace (x / (2 * 2 ^ 52) * (2 * 2 ^ 52)) with x by (field; lra).
    nra. }
  lra.
Qed.

(** Below [2^53] the spacing divides 1. *)
Lemma float64_ulp_divides (x : R) :
  powerRZ 2 (-1022) <= x -> x < 2 ^ 53 ->
  exists j : Z, (0 <= j)%Z /\ float64_ulp x = / IZR (2 ^ j).
Proof.
  intros Hx H53.
  destruct (float64_exponent_spec x Hx) as [He _].
  assert (float64_exponent x < 53)%Z.
  { apply pow2_lt_inv. change 53%Z with (Z.of_nat 53).
    rewrite <- (pow_powerRZ 2 53). lra. }
  exists (52 - float64_exponent x)%Z. split; [lia | ].
  unfold float64_ulp. rewrite <- pow2_nonneg_IZR by lia.
  rewrite <- powerRZ_neg'. f_equal. lia.
Qed.

Lemma float64_scaled (x : R) (j : Z) :
  (0 <= j)%Z -> 0 < x -> float64_ulp x = / IZR (2 ^ j) ->
  float64 x * IZR (2 ^ j) = IZR (round_half_even (x * IZR (2 ^ j))).
Proof.
  intros Hj Hpos Hu. rewrite (float64_pos x Hpos), Hu.
  assert (HT : 0 < IZR (2 ^ j)).
  { apply IZR_lt. apply Z.pow_pos_nonneg; lia. }
  unfold Rdiv. rewrite Rinv_inv. field. lra.
Qed.

(** A rounding does not cross an integer below [2^53]. *)
Lemma float64_ge_int (x : R) (z : Z) :
  powerRZ 2 (-1022) <= x -> x < 2 ^ 53 ->
  IZR z <= x -> IZR z <= float64 x.
Proof.
  intros Hx H53 Hz.
  assert (Hpos : 0 < x) by (pose proof (pow2_pos (-1022)); lra).
  destruct (float64_ulp_divides x Hx H53) as (j & Hj & Hu).
  assert (HT : 0 < IZR (2 ^ j)).
  { apply IZR_lt. apply Z.pow_pos_nonneg; lia. }
  assert (H : (z * 2 ^ j <= round_half_even (x * IZR (2 ^ j)))%Z).
  { apply round_half_even_ge. rewrite mult_IZR. nra. }
  apply IZR_le in H. rewrite mult_IZR in H.
  rewrite <- (float64_scaled x j Hj Hpos Hu) in H. nra.
Qed.

Lemma float64_le_int (x : R) (z : Z) :
  powerRZ 2 (-1022) <= x -> x < 2 ^ 53 ->
  x <= IZR z -> float64 x <= IZR z.
Proof.
  intros Hx H53 Hz.
  assert (Hpos : 0 < x) by (pose proof (pow2_pos (-1022)); lra).
  destruct (float64_ulp_divides x Hx H53) as (j & Hj & Hu).
  assert (HT : 0 < IZR (2 ^ j)).
  { apply IZR_lt. apply Z.pow_pos_nonneg; lia. }
  assert (H : (round_half_even (x * IZR (2 ^ j)) <= z * 2 ^ j)%Z).
  { apply round_half_even_le. rewrite mult_IZR. nra. }
  apply IZR_le in H. rewrite mult_IZR in H.
  rewrite <- (float64_scaled x j Hj Hpos Hu) in H. nra.
Qed.

(** A positive integer below [2^53] is a double. *)
Lemma float64_int (z : Z) :
  (0 < z)%Z -> IZR z < 2 ^ 53 -> float64 (IZR z) = IZR z.
Proof.
  intros Hz H53.
  assert (Hx : powerRZ 2 (-1022) <= IZR z).
  { pose proof (pow2_le (-1022) 0 ltac:(lia)) as H. rewrite powerRZ_O in H.
    assert (1 <= IZR z) by (apply IZR_le; lia). lra. }
  apply Rle_antisym.
  - apply float64_le_int; [exact Hx | exact H53 | lra].
  - apply float64_ge_int; [exact Hx | exact H53 | lra].
Qed.

Lemma py_int_between (r : R) (k : Z) :
  (0 <= k)%Z -> IZR k <= r < IZR k + 1 -> py_int r = k.
Proof.
  intros Hk [H1 H2]. unfold py_int.
  assert (0 <= IZR k) by (apply IZR_le; exact Hk).
  destruct (Rle_dec 0 r) as [_ | Hn]; [ | exfalso; apply Hn; lra].
  symmetry. apply Int_part_spec. lra.
Qed.

Lemma two_pow_53 : 2 ^ 53 = 9007199254740992.
Proof.
  rewrite (pow_IZR 2 53).
  replace (2 ^ Z.of_nat 53)%Z with 9007199254740992%Z by reflexivity.
  reflexivity.
Qed.

Lemma float64_min_normal_small : powerRZ 2 (-1022) <= 1 / 8.
Proof.
  pose proof (pow2_le (-1022) (-3) ltac:(lia)) as H.
  change (-3)%Z with (- (3))%Z in H.
  rewrite powerRZ_neg', (pow2_nonneg_IZR 3) in H by lia.
  replace (2 ^ 3)%Z with 8%Z in H by reflexivity. lra.
Qed.

(** The floor of the real square root is the integer square root of the
    integer quotient. *)
Lemma spec_backsolve_isqrt (d : Z) :
  (1 <= d)%Z -> spec_backsolve d = Z.sqrt ((d - 1) / 6).
Proof.
  intros Hd. unfold spec_backsolve. symmetry. apply Int_part_spec.
  set (q := ((d - 1) / 6)%Z). set (k := Z.sqrt q).
  set (r := (IZR d - 1) / 6).
  assert (Hq0 : (0 <= q)%Z) by (apply Z.div_pos; lia).
  assert (Hk0 : (0 <= k)%Z) by apply Z.sqrt_nonneg.
  destruct (Z.sqrt_spec q Hq0) as [Hlo Hhi]. fold k in Hlo, Hhi.
  assert (Hq1 : (6 * q <= d - 1)%Z) by (apply Z.mul_div_le; lia).
  assert (Hq2 : (d - 1 < 6 * q + 6)%Z).
  { pose proof (Z.mul_succ_div_gt (d - 1) 6 ltac:(lia)). fold q in H. lia. }
  assert (Hr1 : IZR q <= r).
  { unfold r. apply IZR_le in Hq1. rewrite mult_IZR, minus_IZR in Hq1. lra. }
  assert (Hr2 : r < IZR q + 1).
  { unfold r. apply IZR_lt in Hq2.
    rewrite plus_IZR, mult_IZR, minus_IZR in Hq2. lra. }
  assert (Hk1 : IZR k * IZR k <= r).
  { apply IZR_le in Hlo. rewrite mult_IZR in Hlo. lra. }
  assert (Hk2 : r < (IZR k + 1) * (IZR k + 1)).
  { assert (H : (q + 1 <= Z.succ k * Z.succ k)%Z) by lia.
    apply IZR_le in H. rewrite plus_IZR, mult_IZR, succ_IZR in H. lra. }
  assert (HkR : 0 <= IZR k) by (now apply IZR_le).
  assert (Hs1 : IZR k <= sqrt r).
  { rewrite <- (sqrt_square (IZR k)) by exact HkR.
    now apply sqrt_le_1_alt. }
  assert (Hs2 : sqrt r < IZR k + 1).
  { rewrite <- (sqrt_square (IZR k + 1)) by lra.
    apply sqrt_lt_1_alt. split; [nra | exact Hk2]. }
  lra.
Qed.

(** Up to [10^15] the float computation of line 32 is the integer square
    root of the integer quotient. *)
Lemma backsolve_count_isqrt (d : Z) :
  (1 <= d <= 10 ^ 15)%Z ->
  backsolve_count d = Some (Z.sqrt ((d - 1) / 6)).
Proof.
  intros [Hd1 Hd2]. unfold backsolve_count.
  destruct (Z.ltb_spec (d - 1) 0) as [? | _]; [lia | ].
  assert (Hbig : (10 ^ 15 < 6 * (2 ^ 1024 - 2 ^ 970))%Z)
    by (vm_compute; reflexivity).
  destruct (Z.leb_spec (6 * (2 ^ 1024 - 2 ^ 970)) (d - 1)) as [? | _];
    [lia | ].
  f_equal.
  set (n := (d - 1)%Z) in *.
  destruct (Z.eq_dec n 0) as [-> | Hn0].
  { replace (IZR 0 / 6) with 0 by lra.
    rewrite float64_0, sqrt_0, float64_0.
    apply py_int_between; [reflexivity | cbn; lra]. }
  set (k := Z.sqrt (n / 6)).
  assert (Hq0 : (0 <= n / 6)%Z) by (apply Z.div_pos; lia).
  assert (Hq1 : (6 * (n / 6) <= n)%Z) by (apply Z.mul_div_le; lia).
  assert (Hq2 : (n < 6 * (n / 6) + 6)%Z).
  { pose proof (Z.mul_succ_div_gt n 6 ltac:(lia)). lia. }
  destruct (Z.sqrt_spec (n / 6) Hq0) as [Hlo Hhi]. fold k in Hlo, Hhi.
  assert (Hk0 : (0 <= k)%Z) by apply Z.sqrt_nonneg.
  assert (Hn15 : (n < 1000000000000000)%Z).
  { change (10 ^ 15)%Z with 1000000000000000%Z in Hd2. lia. }
  assert (Hk7 : (k <= 20000000)%Z) by nia.
  assert (HA : ((k + 1) * (k + 1) <= 200000000000000)%Z) by nia.
  assert (Hnlo : (6 * (k * k) <= n)%Z) by lia.
  assert (Hnhi : (n + 1 <= 6 * ((k + 1) * (k + 1)))%Z) by lia.
  (* the same facts over the reals *)
  set (q := IZR n / 6). set (K := IZR k).
  assert (HK0 : 0 <= K) by (apply IZR_le; exact Hk0).
  assert (HAr : (K + 1) * (K + 1) <= 200000000000000).
  { apply IZR_le in HA. rewrite mult_IZR, plus_IZR in HA. exact HA. }
  assert (Hqlo : K * K <= q).
  { apply IZR_le in Hnlo. rewrite !mult_IZR in Hnlo. unfold q, K. lra. }
  assert (Hqhi : q <= (K + 1) * (K + 1) - 1 / 6).
  { apply IZR_le in Hnhi. rewrite plus_IZR, !mult_IZR, plus_IZR in Hnhi.
    unfold q, K. lra. }
  assert (Hq6 : 1 / 6 <= q).
  { assert (1 <= IZR n) by (apply IZR_le; lia). unfold q. lra. }
  pose proof two_pow_53 as HU.
  pose proof float64_min_normal_small as Hmin.
  (* first rounding *)
  assert (Hq53 : q < 2 ^ 53) by (rewrite HU; lra).
  pose proof (float64_error q ltac:(lra)) as E1.
  apply Rabs_le_bounds in E1. rewrite HU in E1.
  assert (S1 : K * K <= float64 q).
  { unfold K. rewrite <- mult_IZR.
    apply float64_ge_int; [lra | exact Hq53 | ].
    rewrite mult_IZR. exact Hqlo. }
  set (q' := float64 q) in *.
  (* the square root *)
  assert (Hq'0 : 0 <= q') by nra.
  pose proof (sqrt_pos q') as Hs0.
  pose proof (sqrt_sqrt q' Hq'0) as Hss.
  set (s := sqrt q') in *.
  assert (HKs : K <= s) by nra.
  assert (Hs8 : 1 / 8 <= s) by nra.
  assert (Hs53 : s < 2 ^ 53) by (rewrite HU; nra).
  (* second rounding *)
  pose proof (float64_error s ltac:(lra)) as E2.
  apply Rabs_le_bounds in E2. rewrite HU in E2.
  assert (S2 : K <= float64 s).
  { unfold K. apply float64_ge_int; [lra | exact Hs53 | exact HKs]. }
  set (s' := float64 s) in *.
  apply py_int_between; [exact Hk0 | ]. fold K.
  split; [exact S2 | ].
  destruct (Rlt_or_le s' (K + 1)) as [Hlt | Hge]; [exact Hlt | exfalso].
  set (t := 1 / 9007199254740992) in *.
  assert (Ht : 0 < t <= 1 / 4) by (unfold t; lra).
  assert (B1 : K + 1 <= s * (1 + t)) by (unfold t in *; lra).
  assert (B2 : (K + 1) * (K + 1) <= s * s * ((1 + t) * (1 + t))).
  { replace (s * s * ((1 + t) * (1 + t)))
      with ((s * (1 + t)) * (s * (1 + t))) by ring.
    apply Rmult_le_compat; lra. }
  assert (B3 : s * s <= q * (1 + t)) by (rewrite Hss; unfold t in *; lra).
  assert (B4 : (1 + t) * (1 + t) * (1 + t) <= 1 + 4 * t) by nra.
  assert (B5 : (K + 1) * (K + 1) <= q * (1 + 4 * t)).
  { apply Rle_trans with (q * ((1 + t) * (1 + t) * (1 + t))).
    - apply Rle_trans with (s * s * ((1 + t) * (1 + t))); [exact B2 | ].
      replace (q * ((1 + t) * (1 + t) * (1 + t)))
        with (q * (1 + t) * ((1 + t) * (1 + t))) by ring.
      apply Rmult_le_compat_r; [nra | exact B3].
    - apply Rmult_le_compat_l; lra. }
  assert (B6 : q * t <= 200000000000000 * t).
  { apply Rmult_le_compat_r; lra. }
  unfold t in *. lra.
Qed.

(** At [axis_dim = 6 * 47453133^2] the quotient [47453133^2 - 1/6] lies
    between two doubles half a unit apart and rounds up to the square. *)
Lemma backsolve_count_rounds_up :
  backsolve_count 13510798989094134 = Some 47453133%Z.
Proof.
  unfold backsolve_count.
  destruct (Z.ltb_spec (13510798989094134 - 1) 0) as [? | _]; [lia | ].
  assert (Hbig : (10 ^ 17 < 6 * (2 ^ 1024 - 2 ^ 970))%Z)
    by (vm_compute; reflexivity).
  destruct (Z.leb_spec (6 * (2 ^ 1024 - 2 ^ 970)) (13510798989094134 - 1))
    as [Hle | _].
  { exfalso. change (10 ^ 17)%Z with 100000000000000000%Z in Hbig. lia. }
  f_equal.
  replace (13510798989094134 - 1)%Z with 13510798989094133%Z by reflexivity.
  set (q := IZR 13510798989094133 / 6).
  assert (Hq : q = 2251799831515689 - 1 / 6) by (unfold q; lra).
  assert (He : float64_exponent q = 51%Z).
  { apply float64_exponent_unique; [lia | ].
    rewrite !pow2_nonneg_IZR by lia.
    replace (2 ^ 51)%Z with 2251799813685248%Z by reflexivity.
    replace (2 ^ (51 + 1))%Z with 4503599627370496%Z by reflexivity.
    lra. }
  assert (Hu : float64_ulp q = 1 / 2).
  { unfold float64_ulp. rewrite He.
    change (51 - 52)%Z with (- (1))%Z.
    rewrite powerRZ_neg', powerRZ_1. lra. }
  assert (Hr : round_half_even (q / (1 / 2)) = 4503599663031378%Z).
  { unfold round_half_even.
    assert (Hf : Int_part (q / (1 / 2)) = 4503599663031377%Z).
    { symmetry. apply Int_part_spec. lra. }
    rewrite Hf.
    destruct (Rlt_dec (q / (1 / 2) - 4503599663031377) (1 / 2)) as [H | _];
      [exfalso; lra | ].
    destruct (Rlt_dec (1 / 2) (q / (1 / 2) - 4503599663031377)) as [_ | H];
      [reflexivity | exfalso; apply H; lra]. }
  assert (Hfq : float64 q = IZR (47453133 * 47453133)).
  { rewrite float64_pos by lra. rewrite Hu, Hr.
    replace (47453133 * 47453133)%Z with 2251799831515689%Z by reflexivity.
    lra. }
  rewrite Hfq, mult_IZR, sqrt_square by lra.
  rewrite float64_int; [ | lia | rewrite two_pow_53; lra].
  apply py_int_between; [lia | lra].
Qed.

Lemma backsolve_count_spec (d : Z) :
  (1 <= d <= 10 ^ 15)%Z -> backsolve_count d = Some (spec_backsolve d).
Proof.
  intros Hd. rewrite (backsolve_count_isqrt d Hd).
  now rewrite spec_backsolve_isqrt by lia.
Qed.

(** C6, as stated for every encoding dimension, fails: the count is the
    truncation of a float64 square root of a float64 quotient, and at
    [axis_dim = 13510798989094134] the quotient [2251799831515688.83..]
    rounds up to [2251799831515689 = 47453133^2], so that the constructor
    generates the basis with both counts [47453133], one more than
    [floor(sqrt((axis_dim - 1) / 6)) = 47453132]. *)
Lemma hex_counts_backsolved_counterexample :
  let a := mkArgs (Arr2 1 [[1]]) (Arr1 [1]) "hex" 13510798989094134 8 8 3 4 in
  hex_counts a = Some (47453133%Z, 47453133%Z) /\
  @create_axes Demo.ext a 1%nat 0%nat =
    @hex_axes Demo.ext a 1%nat (47453133%Z, 47453133%Z) 0%nat /\
  spec_backsolve (axis_dim a) = 47453132%Z /\
  Z.sqrt ((axis_dim a - 1) / 6) = 47453132%Z.
Proof.
  intros a.
  assert (Hc : hex_counts a = Some (47453133%Z, 47453133%Z)).
  { unfold hex_counts, a. cbn [n_rotates n_scales axis_dim].
    cbn [Z.eqb Pos.eqb andb negb].
    now rewrite backsolve_count_rounds_up. }
  split; [exact Hc | split; [ | split]].
  - unfold create_axes. rewrite Hc. reflexivity.
  - unfold a. cbn [axis_dim]. rewrite spec_backsolve_isqrt by lia.
    reflexivity.
  - reflexivity.
Qed.

(** C6, amended.  For the hexagonal variant with both counts left at their
    default 8, whatever encoding dimension from 1 to [10^15] is asked for,
    the counts with which the constructor generates the basis are both
    [floor(sqrt((axis_dim - 1) / 6))], the integer square root of the
    integer quotient of [axis_dim - 1] by 6. *)
Theorem hex_counts_backsolved {ext : Externals} (a : init_args)
    (data_dim : nat) (g : rng_state) :
  axis_type a = "hex"%string ->
  n_rotates a = 8%Z ->
  n_scales a = 8%Z ->
  (1 <= axis_dim a <= 10 ^ 15)%Z ->
  hex_counts a =
    Some (spec_backsolve (axis_dim a), spec_backsolve (axis_dim a)) /\
  create_axes a data_dim g =
    hex_axes a data_dim
             (spec_backsolve (axis_dim a), spec_backsolve (axis_dim a)) g /\
  spec_backsolve (axis_dim a) = Z.sqrt ((axis_dim a - 1) / 6).
Proof.
  intros Hhex Hrot Hsc Hd.
  assert (Hc : hex_counts a =
               Some (spec_backsolve (axis_dim a), spec_backsolve (axis_dim a))).
  { unfold hex_counts. rewrite Hrot, Hsc. cbn [Z.eqb Pos.eqb andb].
    destruct (Z.eqb_spec (axis_dim a) 385) as [E | _]; cbn [negb].
    - rewrite E, (spec_backsolve_isqrt 385) by lia. reflexivity.
    - rewrite (backsolve_count_spec _ Hd). reflexivity. }
  split; [exact Hc | split].
  - unfold create_axes. rewrite Hhex, Hc. reflexivity.
  - apply spec_backsolve_isqrt. lia.
Qed.

Lemma hex_counts_backsolved_witness :
  axis_type Demo.args151 = "hex"%string /\
  n_rotates Demo.args151 = 8%Z /\ n_scales Demo.args151 = 8%Z /\
  (1 <= axis_dim Demo.args151 <= 10 ^ 15)%Z /\
  hex_counts Demo.args151 = Some (spec_backsolve 151, spec_backsolve 151) /\
  spec_backsolve 151 = 5%Z.
Proof.
  destruct (@hex_counts_backsolved Demo.ext Demo.args151 1%nat 0%nat eq_refl
              eq_refl eq_refl ltac:(cbn; lia)) as (Hc & _ & Hk).
  split; [reflexivity | ].
  split; [reflexivity | ].
  split; [reflexivity | ].
  split; [cbn; lia | ].
  split; [exact Hc | exact Hk].
Defined.

(** * Further properties of the code *)

(** ** The encoder *)

Section EncoderFacts.

Context {ext : Externals}.

Lemma encode_factors_needs ps : forall i xrow ls vs,
  encode_factors ps i xrow ls = Some vs ->
  length vs = length ps /\
  (ps <> [] -> (i + length ps <= length xrow /\ i + length ps <= length ls)%nat).
Proof.
  induction ps as [| p ps IH]; intros i xrow ls vs H; cbn in H.
  - injection H as <-. split; [reflexivity | congruence].
  - bind_inv H. injection H as <-.
    destruct (IH _ _ _ _ E1) as [Hl Hb].
    split; [cbn; now rewrite Hl | intros _].
    assert (i < length xrow)%nat by (apply nth_error_Some; congruence).
    assert (i < length ls)%nat by (apply nth_error_Some; congruence).
    destruct ps as [| q ps]; [cbn; lia | ].
    destruct Hb as [Hx Hs]; [discriminate | ]. cbn in *. lia.
Qed.

Lemma encode_factors_firstn ps : forall i xrow xrow' ls ls',
  firstn (i + length ps) xrow = firstn (i + length ps) xrow' ->
  firstn (i + length ps) ls = firstn (i + length ps) ls' ->
  encode_factors ps i xrow ls = encode_factors ps i xrow' ls'.
Proof.
  induction ps as [| p ps IH]; intros i xrow xrow' ls ls' Hx Hl;
    [reflexivity | ].
  cbn [encode_factors length] in *.
  assert (Hnth : forall (l l' : list R),
             firstn (i + S (length ps)) l = firstn (i + S (length ps)) l' ->
             nth_error l i = nth_error l' i).
  { intros l l' H.
    pose proof (nth_error_firstn (i + S (length ps)) l i) as H1.
    pose proof (nth_error_firstn (i + S (length ps)) l' i) as H2.
    destruct (Nat.ltb_spec i (i + S (length ps))); [ | lia].
    rewrite <- H1, <- H2, H. reflexivity. }
  rewrite (Hnth _ _ Hx), (Hnth _ _ Hl).
  rewrite (IH (S i) xrow xrow' ls ls');
    [reflexivity | | ];
    replace (S i + length ps)%nat with (i + S (length ps))%nat by lia;
    assumption.
Qed.

Lemma encode_rows_nth K ps ls : forall xrows rows i xr,
  encode_rows K ps ls xrows = Some rows ->
  nth_error xrows i = Some xr ->
  exists o, nth_error rows i = Some o /\
            encode_rows K ps ls [xr] = Some [o].
Proof.
  induction xrows as [| x0 xrows IH]; intros rows i xr H Hi.
  - destruct i; discriminate Hi.
  - cbn [encode_rows] in H.
    destruct (encode_factors ps 0 x0 ls) as [vs |] eqn:Ef;
      [cbn [obind] in H | discriminate H].
    destruct (py_reduce ssp_bind vs) as [v |] eqn:Er;
      [cbn [obind] in H | discriminate H].
    destruct (assign_row K v) as [out |] eqn:Ea;
      [cbn [obind] in H | discriminate H].
    destruct (encode_rows K ps ls xrows) as [outs |] eqn:Eo;
      [cbn [obind] in H | discriminate H].
    injection H as <-.
    destruct i as [| i]; cbn [nth_error] in Hi |- *.
    + injection Hi as <-. exists out. split; [reflexivity | ].
      cbn [encode_rows]. rewrite Ef. cbn [obind]. rewrite Er. cbn [obind].
      rewrite Ea. reflexivity.
    + destruct (IH _ _ _ eq_refl Hi) as (o & Ho & Hone).
      exists o. split; assumption.
Qed.

Lemma encode_rows_In_none K ps ls : forall xrows xr,
  In xr xrows ->
  encode_factors ps 0 xr ls = None ->
  encode_rows K ps ls xrows = None.
Proof.
  induction xrows as [| x0 xrows IH]; intros xr Hin Hnone; [destruct Hin | ].
  cbn [encode_rows]. destruct Hin as [-> | Hin].
  - rewrite Hnone. reflexivity.
  - rewrite (IH _ Hin Hnone).
    destruct (encode_factors ps 0 x0 ls) as [vs |]; cbn [obind];
      [ | reflexivity].
    destruct (py_reduce ssp_bind vs) as [v |]; cbn [obind]; [ | reflexivity].
    destruct (assign_row K v); reflexivity.
Qed.

Lemma encode_rows_ext K ps ls ls' : forall xrows xrows',
  map (firstn (length ps)) xrows = map (firstn (length ps)) xrows' ->
  firstn (length ps) ls = firstn (length ps) ls' ->
  encode_rows K ps ls xrows = encode_rows K ps ls' xrows'.
Proof.
  induction xrows as [| x0 xrows IH]; intros [| x0' xrows'] Hm Hl;
    try discriminate Hm; [reflexivity | ].
  cbn in Hm. injection Hm as H0 Hm. cbn.
  rewrite (encode_factors_firstn ps 0 x0 x0' ls ls' H0 Hl).
  rewrite (IH _ Hm Hl). reflexivity.
Qed.

End EncoderFacts.

Lemma encode_some_dim_nonneg {ext : Externals} (K : Z) (P x : ndarray)
    (ls : list R) (a : ndarray) :
  _encode K P x ls = Some a -> (0 <= K)%Z.
Proof.
  unfold _encode. intros H.
  destruct x as [? | ? | c xrows]; try discriminate H.
  destruct P as [? | ? | cp ps]; try discriminate H.
  destruct (Z.ltb_spec K 0) as [? | HK]; [discriminate H | exact HK].
Qed.

(** X1.  When [_encode] returns, its result is a 2-d array with one row
    per row of [x] and [ssp_dim] entries in every row, whatever the number
    of points. *)
Theorem encode_output_shape {ext : Externals} (K : Z) (P x : ndarray)
    (ls : list R) (a : ndarray) :
  _encode K P x ls = Some a ->
  exists c xrows rows,
    x = Arr2 c xrows /\ a = Arr2 (Z.to_nat K) rows /\ (0 <= K)%Z /\
    shape a = [length xrows; Z.to_nat K] /\
    Forall (fun r => length r = Z.to_nat K) rows.
Proof.
  intros H. pose proof (encode_some_dim_nonneg K P x ls a H) as HK.
  unfold _encode in H.
  destruct x as [? | ? | c xrows]; try discriminate H.
  destruct P as [? | ? | cp ps]; try discriminate H.
  destruct (K <? 0)%Z; [discriminate H | ].
  destruct (encode_rows (Z.to_nat K) ps ls xrows) as [rows |] eqn:E;
    [ | discriminate H].
  injection H as <-.
  apply encode_rows_shape in E as [Hl Hf].
  exists c, xrows, rows. cbn [shape]. rewrite Hl.
  repeat split; assumption.
Qed.

Lemma encode_output_shape_witness :
  exists a,
    @_encode Demo.ext 2 (Arr2 2 [[1; 1]]) (Arr2 1 [[2]; [3]]) [4] = Some a /\
    shape a = [2%nat; 2%nat].
Proof.
  eexists. split; [reflexivity | ].
  destruct (@encode_output_shape Demo.ext 2 (Arr2 2 [[1; 1]])
              (Arr2 1 [[2]; [3]]) [4] _ eq_refl)
    as (c & xrows & rows & Hx & _ & _ & Hs & _).
  injection Hx as <- <-. exact Hs.
Defined.

(** X2.  The encoding of a point does not depend on the batch it is in:
    row [i] of the encoding of a batch is the encoding of row [i] encoded
    on its own. *)
Theorem encode_point_independent_of_batch {ext : Externals} (K : Z)
    (P : ndarray) (c : nat) (xrows : list (list R)) (ls : list R)
    (k : nat) (rows : list (list R)) (i : nat) (xr : list R) :
  _encode K P (Arr2 c xrows) ls = Some (Arr2 k rows) ->
  nth_error xrows i = Some xr ->
  exists o,
    nth_error rows i = Some o /\
    _encode K P (Arr2 (length xr) [xr]) ls = Some (Arr2 k [o]).
Proof.
  unfold _encode. intros H Hi.
  destruct P as [? | ? | cp ps]; try discriminate H.
  destruct (K <? 0)%Z; [discriminate H | ].
  bind_inv H. injection H as <- <-.
  destruct (encode_rows_nth _ _ _ _ _ _ _ E Hi) as (o & Ho & Hone).
  exists o. split; [exact Ho | ]. rewrite Hone. reflexivity.
Qed.

Lemma encode_point_independent_of_batch_witness :
  exists rows o,
    @_encode Demo.ext 2 (Arr2 2 [[1; 1]]) (Arr2 1 [[2]; [3]]) [4]
      = Some (Arr2 2 rows) /\
    nth_error rows 1 = Some o /\
    @_encode Demo.ext 2 (Arr2 2 [[1; 1]]) (Arr2 1 [[3]]) [4]
      = Some (Arr2 2 [o]).
Proof.
  do 2 eexists. split; [reflexivity | ].
  destruct (@encode_point_independent_of_batch Demo.ext 2 (Arr2 2 [[1; 1]])
              1 [[2]; [3]] [4] _ _ 1 [3] eq_refl eq_refl)
    as (o & Ho & Hone).
  cbn in Ho. injection Ho as <-. split; [reflexivity | exact Hone].
Defined.

(** X3.  [_encode] reads only the first [len(ptrs)] columns of [x] and the
    first [len(ptrs)] entries of the length scale: a batch with further
    columns is accepted, and those columns do not change the result. *)
Theorem encode_ignores_extra_columns {ext : Externals} (K : Z)
    (cp : nat) (ps : list (list R)) (c c' : nat)
    (xrows xrows' : list (list R)) (ls ls' : list R) :
  map (firstn (length ps)) xrows = map (firstn (length ps)) xrows' ->
  firstn (length ps) ls = firstn (length ps) ls' ->
  _encode K (Arr2 cp ps) (Arr2 c xrows) ls =
  _encode K (Arr2 cp ps) (Arr2 c' xrows') ls'.
Proof.
  intros Hx Hl. unfold _encode.
  now rewrite (encode_rows_ext _ ps ls ls' xrows xrows' Hx Hl).
Qed.

Lemma encode_ignores_extra_columns_witness :
  @_encode Demo.ext 2 (Arr2 2 [[1; 1]]) (Arr2 1 [[2]]) [4] =
  @_encode Demo.ext 2 (Arr2 2 [[1; 1]]) (Arr2 3 [[2; 7; 8]]) [4; 9].
Proof.
  apply (@encode_ignores_extra_columns Demo.ext 2 2 [[1; 1]] 1 3
           [[2]] [[2; 7; 8]] [4] [4; 9]); reflexivity.
Defined.

Lemma encode_factors_short {ext : Externals} (ps : list (list R))
    (xr ls : list R) :
  (length xr < length ps)%nat \/ (length ls < length ps)%nat ->
  encode_factors ps 0 xr ls = None.
Proof.
  intros Hlen.
  destruct (encode_factors ps 0 xr ls) as [vs |] eqn:E; [ | reflexivity].
  apply encode_factors_needs in E as [_ Hb].
  destruct ps as [| p ps]; [cbn in Hlen; lia | ].
  destruct Hb as [Hx Hl]; [discriminate | cbn in *; lia].
Qed.

(** X4.  [_encode] raises when some row of [x] has fewer entries than there
    are pointers, and, for a batch with at least one row, when the length
    scale has fewer entries than there are pointers. *)
Theorem encode_short_input_raises {ext : Externals} (K : Z)
    (cp : nat) (ps : list (list R)) (c : nat) (xrows : list (list R))
    (ls : list R) :
  (exists xr, In xr xrows /\ (length xr < length ps)%nat) \/
  (xrows <> [] /\ (length ls < length ps)%nat) ->
  _encode K (Arr2 cp ps) (Arr2 c xrows) ls = None.
Proof.
  intros H. unfold _encode. destruct (K <? 0)%Z; [reflexivity | ].
  assert (Hnone : exists xr, In xr xrows /\
                             encode_factors ps 0 xr ls = None).
  { destruct H as [(xr & Hin & Hlen) | [Hne Hlen]].
    - exists xr. split; [exact Hin | ].
      apply encode_factors_short. now left.
    - destruct xrows as [| xr xrows]; [congruence | ].
      exists xr. split; [now left | ].
      apply encode_factors_short. now right. }
  destruct Hnone as (xr & Hin & Hn).
  now rewrite (encode_rows_In_none _ _ _ _ _ Hin Hn).
Qed.

Lemma encode_short_input_raises_witness :
  @_encode Demo.ext 2 (Arr2 2 [[1; 1]; [1; 1]]) (Arr2 1 [[2]]) [4; 4] = None.
Proof.
  apply (@encode_short_input_raises Demo.ext 2 2 [[1; 1]; [1; 1]] 1 [[2]]
           [4; 4]).
  left. exists [2]. split; [now left | cbn; lia].
Defined.

(** X5.  On a batch with no rows [_encode] checks neither the pointers nor
    the length scale and returns the empty array of shape [(0, ssp_dim)];
    with no pointer and at least one row it raises. *)
Theorem encode_empty_cases {ext : Externals} (K : Z) (cp c : nat)
    (ps : list (list R)) (xrows : list (list R)) (ls : list R) :
  (0 <= K)%Z ->
  _encode K (Arr2 cp ps) (Arr2 c []) ls = Some (Arr2 (Z.to_nat K) []) /\
  (xrows <> [] -> _encode K (Arr2 cp []) (Arr2 c xrows) ls = None).
Proof.
  intros HK. unfold _encode.
  destruct (Z.ltb_spec K 0) as [? | _]; [lia | ].
  split; [reflexivity | ].
  intros Hne. destruct xrows as [| xr xrows]; [congruence | reflexivity].
Qed.

Lemma encode_empty_cases_witness :
  @_encode Demo.ext 2 (Arr2 2 [[1; 1]]) (Arr2 1 []) [] = Some (Arr2 2 []) /\
  @_encode Demo.ext 2 (Arr2 2 []) (Arr2 1 [[5]]) [4] = None.
Proof.
  split.
  - apply (@encode_empty_cases Demo.ext 2 2 1 [[1; 1]] [] []). lia.
  - apply (@encode_empty_cases Demo.ext 2 2 1 [] [[5]] [4]);
      [lia | discriminate].
Defined.

Section EncoderTotal.

Context {ext : Externals}.

Hypothesis encode_length : forall p s, length (ssp_encode p s) = length p.
Hypothesis bind_length :
  forall u v, length u = length v -> length (ssp_bind u v) = length u.

Lemma encode_factors_returns (k : nat) ps : forall i xrow ls,
  Forall (fun p => length p = k) ps ->
  (i + length ps <= length xrow)%nat ->
  (i + length ps <= length ls)%nat ->
  exists vs, encode_factors ps i xrow ls = Some vs /\
             length vs = length ps /\
             Forall (fun v => length v = k) vs.
Proof.
  induction ps as [| p ps IH]; intros i xrow ls Hp Hx Hl; cbn [encode_factors].
  - exists []. repeat split; constructor.
  - cbn [length] in Hx, Hl.
    destruct (nth_error xrow i) as [xi |] eqn:Exi;
      [ | apply nth_error_None in Exi; lia].
    destruct (nth_error ls i) as [li |] eqn:Eli;
      [ | apply nth_error_None in Eli; lia].
    destruct (IH (S i) xrow ls (Forall_inv_tail Hp)) as (vs & -> & Hlen & Hf);
      [lia | lia | ].
    cbn [obind]. eexists. split; [reflexivity | ].
    split; [cbn; now rewrite Hlen | ].
    constructor; [ | exact Hf].
    rewrite encode_length. exact (Forall_inv Hp).
Qed.

Lemma fold_bind_length (k : nat) : forall vs v,
  length v = k -> Forall (fun u => length u = k) vs ->
  length (fold_left ssp_bind vs v) = k.
Proof.
  induction vs as [| u vs IH]; intros v Hv Hf; cbn [fold_left];
    [exact Hv | ].
  apply IH; [ | exact (Forall_inv_tail Hf)].
  rewrite bind_length; [exact Hv | ].
  rewrite Hv. symmetry. exact (Forall_inv Hf).
Qed.

Lemma encode_rows_returns (k : nat) ps ls :
  ps <> [] ->
  Forall (fun p => length p = k) ps ->
  (length ps <= length ls)%nat ->
  forall xrows,
  Forall (fun xr => (length ps <= length xr)%nat) xrows ->
  exists rows, encode_rows k ps ls xrows = Some rows.
Proof.
  intros Hne Hp Hl. induction xrows as [| xr xrows IH]; intros Hx.
  - exists []. reflexivity.
  - cbn [encode_rows].
    destruct (encode_factors_returns k ps 0 xr ls Hp) as (vs & -> & Hlen & Hf);
      [exact (Forall_inv Hx) | exact Hl | ].
    cbn [obind].
    destruct vs as [| v vs]; [destruct ps; [congruence | discriminate] | ].
    cbn [py_reduce obind].
    unfold assign_row.
    rewrite (fold_bind_length k vs v (Forall_inv Hf) (Forall_inv_tail Hf)).
    rewrite Nat.eqb_refl. cbn [obind].
    destruct (IH (Forall_inv_tail Hx)) as [rows ->].
    eexists. reflexivity.
Qed.

End EncoderTotal.

(** X6.  With a binding algebra that keeps the length of its operands, at
    least one pointer, pointers of [ssp_dim] entries, and a length scale and
    rows of [x] that have an entry for every pointer, [_encode] returns. *)
Theorem encode_returns {ext : Externals} (K : Z) (cp : nat)
    (ps : list (list R)) (c : nat) (xrows : list (list R)) (ls : list R) :
  (forall p s, length (ssp_encode p s) = length p) ->
  (forall u v, length u = length v -> length (ssp_bind u v) = length u) ->
  (0 <= K)%Z ->
  ps <> [] ->
  Forall (fun p => length p = Z.to_nat K) ps ->
  (length ps <= length ls)%nat ->
  Forall (fun xr => (length ps <= length xr)%nat) xrows ->
  exists rows,
    _encode K (Arr2 cp ps) (Arr2 c xrows) ls = Some (Arr2 (Z.to_nat K) rows) /\
    length rows = length xrows.
Proof.
  intros He Hb HK Hne Hp Hl Hx. unfold _encode.
  destruct (Z.ltb_spec K 0) as [? | _]; [lia | ].
  destruct (encode_rows_returns He Hb (Z.to_nat K) ps ls Hne Hp Hl xrows Hx)
    as [rows Hrows].
  rewrite Hrows. exists rows. split; [reflexivity | ].
  now apply encode_rows_shape in Hrows.
Qed.

Lemma demo_power_length : forall p s, length (@ssp_encode Demo.ext p s) = length p.
Proof. intros p s. apply length_map. Qed.

Lemma demo_bind_length : forall u v,
  length u = length v -> length (@ssp_bind Demo.ext u v) = length u.
Proof.
  intros u v H. cbn. unfold Demo.bind.
  rewrite length_map, length_combine, <- H. apply Nat.min_id.
Qed.

Lemma encode_returns_witness :
  exists rows,
    @_encode Demo.ext 2 (Arr2 2 [[1; 1]; [1; 1]])
             (Arr2 2 [[2; 3]; [4; 5]; [6; 7]]) [4; 4]
      = Some (Arr2 2 rows) /\
    length rows = 3%nat.
Proof.
  apply (@encode_returns Demo.ext 2 2 [[1; 1]; [1; 1]] 2
           [[2; 3]; [4; 5]; [6; 7]] [4; 4]
           demo_power_length demo_bind_length).
  - lia.
  - discriminate.
  - repeat constructor.
  - cbn. lia.
  - repeat constructor.
Defined.

(** ** The state over the life of the agent *)

(** X7.  No method call changes the pointers, the encoding dimension, the
    length scale, the number of restarts or the exploration width: whatever
    calls of [eval], [update] and [select_optimal] have returned since, a
    batch is encoded as it was before them. *)
Theorem encoder_fixed_for_life {ext : Externals} (w w' : world ext) :
  evolves w w' ->
  ptrs (self w') = ptrs (self w) /\
  ssp_dim (self w') = ssp_dim (self w) /\
  length_scale (self w') = length_scale (self w) /\
  num_restarts (self w') = num_restarts (self w) /\
  sqrt_alpha (self w') = sqrt_alpha (self w) /\
  forall xs, encode (self w') xs = encode (self w) xs.
Proof.
  intros H.
  assert (Hfix : ptrs (self w') = ptrs (self w) /\
                 ssp_dim (self w') = ssp_dim (self w) /\
                 length_scale (self w') = length_scale (self w) /\
                 num_restarts (self w') = num_restarts (self w) /\
                 sqrt_alpha (self w') = sqrt_alpha (self w)).
  { induction H as [w | xs w w1 [[mu var] phi] w' _ IH H
                    | x y s w w1 w' _ IH H | bounds w w1 out w' _ IH H].
    - repeat split.
    - apply eval_inv in H as (ph & _ & _ & _ & ->). exact IH.
    - apply update_inv in H as [b ->]. exact IH.
    - apply select_optimal_self in H. rewrite H. exact IH. }
  destruct Hfix as (Hp & Hd & Hl & Hn & Ha).
  repeat (split; [assumption | ]).
  intros xs. unfold encode. now rewrite Hp, Hd, Hl.
Qed.

Lemma demo_update_then_eval :
  exists w1 out w2,
    @update Demo.ext (Arr1 [1]) (PyArray (Arr1 [1])) 0.5 Demo.world0
      = Some w1 /\
    @eval Demo.ext (Arr2 1 [[3]]) w1 = Some (out, w2).
Proof. do 3 eexists. split; reflexivity. Qed.

Lemma encoder_fixed_for_life_witness :
  exists w1 w2,
    @update Demo.ext (Arr1 [1]) (PyArray (Arr1 [1])) 0.5 Demo.world0
      = Some w1 /\
    (exists out, @eval Demo.ext (Arr2 1 [[3]]) w1 = Some (out, w2)) /\
    forall xs, encode (self w2) xs = encode (self Demo.world0) xs.
Proof.
  destruct demo_update_then_eval as (w1 & out & w2 & Hu & He).
  exists w1, w2. split; [exact Hu | ].
  split; [exists out; exact He | ].
  refine (proj2 (proj2 (proj2 (proj2 (proj2
            (@encoder_fixed_for_life Demo.ext Demo.world0 w2 _)))))).
  eapply evolves_eval; [ | exact He].
  eapply evolves_update; [apply evolves_refl | exact Hu].
Defined.

(** ** [eval] *)

(** X8.  [eval] is idempotent: once a call has returned, every further call
    with no [update] in between returns the same three arrays and leaves
    the state as it is, whatever its argument. *)
Theorem eval_idempotent {ext : Externals} (xs : ndarray) (w : world ext)
    out w1 :
  eval xs w = Some (out, w1) ->
  forall xs', eval xs' w1 = Some (out, w1).
Proof.
  destruct out as [[mu var] phi]. intros H xs'.
  apply eval_inv in H as (ph & _ & Hpred & -> & ->).
  unfold eval. cbn. rewrite Hpred. reflexivity.
Qed.

Lemma eval_idempotent_witness :
  exists out w1,
    @eval Demo.ext (Arr2 1 [[1]]) Demo.world0 = Some (out, w1) /\
    @eval Demo.ext (Arr2 1 [[1]]) w1 = Some (out, w1).
Proof.
  do 2 eexists. split; [reflexivity | ].
  apply (@eval_idempotent Demo.ext (Arr2 1 [[1]]) Demo.world0). reflexivity.
Defined.

(** X9.  [eval] writes nothing but the cache: the posterior, the
    accumulator and the generator are as before the call and the cache is
    filled after it; when the cache was already filled, the whole state is
    as before. *)
Theorem eval_writes_only_the_cache {ext : Externals} (xs : ndarray)
    (w : world ext) out w' :
  eval xs w = Some (out, w') ->
  blr (self w') = blr (self w) /\
  gamma_t (self w') = gamma_t (self w) /\
  np_random w' = np_random w /\
  phis (self w') <> None /\
  (phis (self w) <> None -> w' = w).
Proof.
  destruct out as [[mu var] phi]. intros H.
  apply eval_inv in H as (ph & Hph & _ & _ & ->). cbn.
  repeat split; try discriminate.
  intros Hsome. destruct w as [[n P K ls b g a c] rng]. cbn in *.
  destruct c as [p |]; [ | congruence].
  injection Hph as ->. reflexivity.
Qed.

Lemma eval_writes_only_the_cache_witness :
  exists out w',
    @eval Demo.ext (Arr2 1 [[1]]) Demo.world0 = Some (out, w') /\
    blr (self w') = blr (self Demo.world0) /\
    gamma_t (self w') = 0.
Proof.
  do 2 eexists. split; [reflexivity | ].
  destruct (@eval_writes_only_the_cache Demo.ext (Arr2 1 [[1]]) Demo.world0
              _ _ eq_refl) as (Hb & Hg & _).
  split; [exact Hb | exact Hg].
Defined.

Lemma sqrt_gap_bounds (v g : R) :
  0 <= v -> 0 <= g -> 0 <= sqrt (v + g) - sqrt g <= sqrt v.
Proof.
  intros Hv Hg.
  pose proof (sqrt_pos v) as Ha. pose proof (sqrt_pos g) as Hb.
  pose proof (sqrt_pos (v + g)) as Hc.
  pose proof (sqrt_sqrt v Hv) as Ha2. pose proof (sqrt_sqrt g Hg) as Hb2.
  pose proof (sqrt_sqrt (v + g) ltac:(lra)) as Hc2.
  split.
  - assert (sqrt g <= sqrt (v + g)) by (apply sqrt_le_1; lra). lra.
  - nra.
Qed.

Lemma sqrt_gap_antitone (v g1 g2 : R) :
  0 <= v -> 0 <= g1 <= g2 ->
  sqrt (v + g2) - sqrt g2 <= sqrt (v + g1) - sqrt g1.
Proof.
  intros Hv [Hg1 Hg].
  pose proof (sqrt_pos g1) as Ha1. pose proof (sqrt_pos g2) as Ha2.
  pose proof (sqrt_sqrt g1 Hg1) as Ea1.
  pose proof (sqrt_sqrt g2 ltac:(lra)) as Ea2.
  pose proof (sqrt_sqrt (v + g1) ltac:(lra)) as Ec1.
  pose proof (sqrt_sqrt (v + g2) ltac:(lra)) as Ec2.
  assert (sqrt g1 <= sqrt g2) by (apply sqrt_le_1; lra).
  assert (sqrt (v + g1) <= sqrt (v + g2)) by (apply sqrt_le_1; lra).
  assert (sqrt g1 <= sqrt (v + g1)) by (apply sqrt_le_1; lra).
  assert (sqrt g2 <= sqrt (v + g2)) by (apply sqrt_le_1; lra).
  set (a1 := sqrt g1) in *. set (a2 := sqrt g2) in *.
  set (c1 := sqrt (v + g1)) in *. set (c2 := sqrt (v + g2)) in *.
  destruct (Rle_or_lt (c2 - a2) (c1 - a1)) as [| Hlt]; [assumption | ].
  exfalso.
  assert (Hs : 0 < c2 + a2) by nra.
  assert ((c2 - a2) * (c2 + a2) = (c1 - a1) * (c1 + a1)) by nra.
  assert ((c1 - a1) * (c2 + a2) < (c2 - a2) * (c2 + a2))
    by (apply Rmult_lt_compat_r; lra).
  assert ((c1 - a1) * (c1 + a1) <= (c1 - a1) * (c2 + a2))
    by (apply Rmult_le_compat_l; lra).
  lra.
Qed.

Lemma ravel_arr_map (f : R -> R) (a : ndarray) :
  ravel (arr_map f a) = map f (ravel a).
Proof.
  destruct a as [x | v | c rows]; cbn; try reflexivity.
  symmetry. apply concat_map.
Qed.

Lemma shape_arr_map (f : R -> R) (a : ndarray) :
  shape (arr_map f a) = shape a.
Proof.
  destruct a as [x | v | c rows]; cbn; now rewrite ?length_map.
Qed.

Lemma ravel_exploration_bonus (a g : R) (var : ndarray) :
  ravel (exploration_bonus a g var) =
  map (fun v => a * (sqrt (v + g) - sqrt g)) (ravel var).
Proof.
  unfold exploration_bonus.
  now rewrite !arr_map_arr_map, ravel_arr_map.
Qed.

Lemma Forall2_map_r_same {A B : Type} (P : A -> B -> Prop) (f : A -> B)
    (l : list A) :
  Forall (fun x => P x (f x)) l -> Forall2 P l (map f l).
Proof. induction 1; cbn; constructor; assumption. Qed.

Lemma Forall2_map_both {A B C : Type} (P : B -> C -> Prop)
    (f : A -> B) (g : A -> C) (l : list A) :
  Forall (fun x => P (f x) (g x)) l -> Forall2 P (map f l) (map g l).
Proof. induction 1; cbn; constructor; assumption. Qed.

(** X10.  In a state the agent can reach with a non-negative accumulator,
    when the variances [eval] returns are non-negative, the bonus has the
    shape of the variances, and each of its entries lies between 0 and
    [log(2/delta) * sqrt(var)] for the variance [var] at its place. *)
Theorem eval_bonus_bounds {ext : Externals} (xs : ndarray) (w : world ext)
    mu var phi w' :
  reachable w ->
  0 <= gamma_t (self w) ->
  eval xs w = Some (mu, var, phi, w') ->
  Forall (fun v => 0 <= v) (ravel var) ->
  shape phi = shape var /\
  Forall2 (fun v b => 0 <= b <= ln (2 / delta) * sqrt v)
          (ravel var) (ravel phi).
Proof.
  intros Hr Hg H Hvar.
  destruct (reachable_constants w Hr) as [_ Ha].
  apply eval_inv in H as (ph & _ & _ & -> & _).
  split.
  - unfold exploration_bonus. now rewrite !shape_arr_map.
  - rewrite ravel_exploration_bonus, Ha. unfold init_sqrt_alpha.
    apply Forall2_map_r_same.
    eapply Forall_impl; [ | exact Hvar]. cbn. intros v Hv.
    pose proof (sqrt_gap_bounds v (gamma_t (self w)) Hv Hg) as [H0 H1].
    pose proof ln_two_over_delta_gt_1 as Hln.
    split.
    + apply Rmult_le_pos; lra.
    + apply Rmult_le_compat_l; lra.
Qed.

Lemma demo_eval_world0 :
  exists mu phi w',
    @eval Demo.ext (Arr2 1 [[1]]) Demo.world0 = Some (mu, Arr1 [1], phi, w').
Proof. do 3 eexists. reflexivity. Qed.

Lemma eval_bonus_bounds_witness :
  exists mu var phi w',
    @eval Demo.ext (Arr2 1 [[1]]) Demo.world0 = Some (mu, var, phi, w') /\
    shape phi = shape var /\
    Forall2 (fun v b => 0 <= b <= ln (2 / delta) * sqrt v)
            (ravel var) (ravel phi).
Proof.
  destruct demo_eval_world0 as (mu & phi & w' & He).
  exists mu, (Arr1 [1]), phi, w'. split; [exact He | ].
  apply (@eval_bonus_bounds Demo.ext (Arr2 1 [[1]]) Demo.world0 mu
           (Arr1 [1]) phi w' demo_world0_reachable).
  - cbn. lra.
  - exact He.
  - cbn. repeat constructor. lra.
Defined.

(** X11.  The exploration bonus of line 89 shrinks as the accumulator
    grows: for a non-negative width and non-negative variances, every
    entry of the bonus at a larger [gamma_t] is at most the entry at a
    smaller non-negative [gamma_t]. *)
Theorem bonus_shrinks_as_gamma_grows (a g1 g2 : R) (var : ndarray) :
  0 <= a ->
  0 <= g1 <= g2 ->
  Forall (fun v => 0 <= v) (ravel var) ->
  Forall2 (fun b1 b2 => b2 <= b1)
          (ravel (exploration_bonus a g1 var))
          (ravel (exploration_bonus a g2 var)).
Proof.
  intros Ha Hg Hvar. rewrite !ravel_exploration_bonus.
  apply Forall2_map_both.
  eapply Forall_impl; [ | exact Hvar]. cbn. intros v Hv.
  apply Rmult_le_compat_l; [exact Ha | ].
  now apply sqrt_gap_antitone.
Qed.

Lemma bonus_shrinks_as_gamma_grows_witness :
  Forall2 (fun b1 b2 => b2 <= b1)
          (ravel (exploration_bonus 2 0 (Arr2 2 [[1; 4]])))
          (ravel (exploration_bonus 2 3 (Arr2 2 [[1; 4]]))).
Proof.
  apply bonus_shrinks_as_gamma_grows.
  - lra.
  - lra.
  - cbn. repeat constructor; lra.
Defined.

(** ** [select_optimal]: failures, ties and the objective *)

Lemma Forall2_Exists_none {A B : Type} (f : A -> option B) (l : list A) :
  forall rs,
  Forall2 (fun x r => f x = Some r) l rs ->
  Exists (fun x => f x = None) l -> False.
Proof.
  induction l as [| x l IH]; intros rs H2 Hex; inversion Hex; subst;
    inversion H2; subst.
  - congruence.
  - eapply IH; eassumption.
Qed.

(** X12.  [select_optimal] has no handler around its minimisations: when
    the minimiser raises at one of the starting points drawn, the whole
    call raises and no candidate is returned, whatever the other restarts
    found. *)
Theorem select_optimal_raises_with_a_restart {ext : Externals}
    (bounds : list (R * R)) (w : world ext) :
  Exists (fun x0 =>
            scipy_minimize (objective (self w)) x0 (Some bounds) = None)
         (fst (draw_starts (num_restarts (self w)) bounds (np_random w))) ->
  select_optimal bounds w = None.
Proof.
  intros Hex.
  destruct (select_optimal bounds w) as [[out w'] |] eqn:E; [ | reflexivity].
  exfalso. unfold select_optimal in E.
  destruct (restart_loop _ _ _ _ _ _) as [[[solns vals] w1] |] eqn:Hloop;
    [ | discriminate E].
  apply restart_loop_inv in Hloop as (results & Hres & _).
  exact (Forall2_Exists_none _ _ _ Hres Hex).
Qed.

Lemma select_optimal_raises_with_a_restart_witness :
  @select_optimal Demo.ext Demo.bounds10 Demo.world0 = None.
Proof.
  apply select_optimal_raises_with_a_restart.
  cbn [num_restarts self Demo.world0 Demo.agent0 draw_starts].
  destruct (np_random_uniform _ _ _ _) as [x0 g'].
  destruct (draw_starts 9 Demo.bounds10 g') as [rest g''].
  apply Exists_cons_hd.
  cbn [scipy_minimize Demo.ext Demo.collaborators].
  unfold Demo.corner_minimize, Demo.feasible, Demo.bounds10.
  cbn [forallb fst snd].
  destruct (Rle_dec 1 0) as [Hle | _]; [exfalso; lra | reflexivity].
Defined.

Lemma argmax_from_first : forall l pre best_i best,
  nth_error pre best_i = Some best ->
  Forall (fun v => v <= best) pre ->
  (forall j v, (j < best_i)%nat -> nth_error pre j = Some v -> v < best) ->
  exists b,
    nth_error (pre ++ l) (argmax_from best_i best (length pre) l) = Some b /\
    Forall (fun v => v <= b) (pre ++ l) /\
    forall j v,
      (j < argmax_from best_i best (length pre) l)%nat ->
      nth_error (pre ++ l) j = Some v -> v < b.
Proof.
  induction l as [| v l IH]; intros pre best_i best Hn Hf Hfirst;
    cbn [argmax_from].
  - exists best. rewrite app_nil_r. repeat split; assumption.
  - replace (pre ++ v :: l) with ((pre ++ [v]) ++ l)
      by (now rewrite <- app_assoc).
    replace (S (length pre)) with (length (pre ++ [v]))
      by (rewrite length_app; cbn; lia).
    destruct (Rlt_dec best v) as [Hlt | Hge].
    + apply IH.
      * rewrite nth_error_app2 by lia. now rewrite Nat.sub_diag.
      * apply Forall_app. split.
        -- eapply Forall_impl; [ | exact Hf]. cbn. intros; lra.
        -- constructor; [lra | constructor].
      * intros j u Hj Hu. rewrite nth_error_app1 in Hu by exact Hj.
        apply nth_error_In in Hu.
        rewrite Forall_forall in Hf. specialize (Hf _ Hu). lra.
    + assert (Hbi : (best_i < length pre)%nat)
        by (apply nth_error_Some; congruence).
      apply IH.
      * rewrite nth_error_app1; assumption.
      * apply Forall_app. split; [exact Hf | ].
        constructor; [lra | constructor].
      * intros j u Hj Hu. rewrite nth_error_app1 in Hu by lia.
        eapply Hfirst; eassumption.
Qed.

(** X13.  Among restarts with the same best score [select_optimal] returns
    the earliest: every restart before the chosen one has a strictly
    smaller score, and no restart has a larger one. *)
Theorem select_optimal_returns_earliest_best {ext : Externals}
    (bounds : list (R * R)) (w : world ext)
    (results : list OptimizeResult) :
  num_restarts (self w) <> 0%nat ->
  Forall2 (fun x0 r =>
             scipy_minimize (objective (self w)) x0 (Some bounds) = Some r)
          (fst (draw_starts (num_restarts (self w)) bounds (np_random w)))
          results ->
  exists i r w',
    nth_error results i = Some r /\
    select_optimal bounds w =
      Some (reshape_1_infer (Arr1 (res_x r)), - res_fun r, 0%Z, w') /\
    Forall (fun r' => - res_fun r' <= - res_fun r) results /\
    forall j r',
      (j < i)%nat -> nth_error results j = Some r' ->
      - res_fun r' < - res_fun r.
Proof.
  intros Hn H.
  assert (Hlen : length results = num_restarts (self w)).
  { apply Forall2_length in H. now rewrite draw_starts_length in H. }
  unfold select_optimal.
  rewrite (restart_loop_run _ _ _ [] [] w results H). cbn [obind app].
  destruct results as [| r0 results]; [cbn in Hlen; congruence | ].
  cbn [map np_argmax obind].
  destruct (argmax_from_first (map (fun r => - res_fun r) results)
              [- res_fun r0] 0 (- res_fun r0) eq_refl)
    as (b & Hk & Hmax & Hfirst).
  { constructor; [lra | constructor]. }
  { intros j v Hj. lia. }
  cbn [length app] in Hk, Hmax, Hfirst.
  set (k := argmax_from 0 (- res_fun r0) 1
              (map (fun r => - res_fun r) results)) in *.
  change (- res_fun r0 :: map (fun r => - res_fun r) results)
    with (map (fun r => - res_fun r) (r0 :: results)) in *.
  change (res_x r0 :: map res_x results) with (map res_x (r0 :: results)).
  rewrite Hk. rewrite nth_error_map in Hk.
  destruct (nth_error (r0 :: results) k) as [r |] eqn:Hr;
    [ | discriminate Hk].
  injection Hk as <-. rewrite nth_error_map, Hr. cbn [option_map obind].
  exists k, r. eexists. split; [exact Hr | ].
  split; [reflexivity | ].
  split; [now rewrite Forall_map in Hmax | ].
  intros j r' Hj Hr'. apply (Hfirst j); [exact Hj | ].
  now rewrite nth_error_map, Hr'.
Qed.

Lemma select_optimal_returns_earliest_best_witness :
  exists i r w',
    nth_error (repeat Demo.result0 10) i = Some r /\
    @select_optimal Demo.ext Demo.bounds01 Demo.world0 =
      Some (reshape_1_infer (Arr1 (res_x r)), - res_fun r, 0%Z, w') /\
    forall j r',
      (j < i)%nat -> nth_error (repeat Demo.result0 10) j = Some r' ->
      - res_fun r' < - res_fun r.
Proof.
  destruct (@select_optimal_returns_earliest_best Demo.ext Demo.bounds01
              Demo.world0 (repeat Demo.result0 10))
    as (i & r & w' & Hi & Hsel & _ & Hfirst);
    [discriminate | exact demo_restarts_in_box01 | ].
  exists i, r, w'. split; [exact Hi | split; [exact Hsel | exact Hfirst]].
Defined.

Section ObjectiveValue.

Context {ext : Externals}.

(** The value of [optim_func] for any captured keyword defaults. *)
Lemma optim_func_value (ag : SSPAgent ext) (m : ndarray)
    (gamma beta_inv : R) (x phi mv : list R) (K : nat)
    (Srows : list (list R)) :
  encode ag (reshape_1_infer (Arr1 x)) = Some (Arr2 K [phi]) ->
  m = Arr1 mv \/ m = Arr2 1 (map (fun v => [v]) mv) ->
  length mv = K ->
  length Srows = K ->
  Forall (fun r => length r = K) Srows ->
  optim_func ag m (Arr2 K Srows) gamma beta_inv x =
    Some (Arr1 [spec_objective phi mv Srows gamma beta_inv]).
Proof.
  intros Henc Hm Hmv HSl HSr.
  destruct (encode_point_shape ag x _ Henc) as (phi' & Heq & Hphi').
  injection Heq as HK <-. rewrite <- HK in Hphi'. clear HK.
  unfold optim_func. rewrite Henc. cbn [obind].
  assert (Hval : exists val,
             matmul (Arr2 K [phi]) m = Some val /\
             ravel val = [dot phi mv] /\
             atleast_2d val = (1%nat, [[dot phi mv]])).
  { destruct Hm as [-> | ->]; cbn [matmul].
    - rewrite Hmv, Nat.eqb_refl. eexists. repeat split.
    - rewrite length_map, Hmv, Nat.eqb_refl.
      rewrite (columns_of_singletons (fun v => v)), map_id.
      eexists. repeat split. }
  destruct Hval as (val & -> & Hrav & H2d). cbn [obind].
  cbn [matmul transpose length]. rewrite HSl, Nat.eqb_refl. cbn [obind map].
  assert (Hc : length (columns K [phi]) = K)
    by (unfold columns; now rewrite length_map, length_seq).
  cbn [matmul]. rewrite Hc, Nat.eqb_refl. cbn [obind map arr_map].
  rewrite <- Hphi' at 2. rewrite columns_of_row.
  rewrite (columns_of_singletons (fun v => v)), map_id. cbn [map].
  rewrite dot_columns_assoc by congruence.
  assert (Hsum : forall b,
             arr_binop Rplus val (Arr2 1 [[b]]) =
             Some (Arr2 1 [[dot phi mv + b]])).
  { intros b. destruct val as [v0 | v | c rows]; cbn in Hrav, H2d.
    - injection Hrav as ->. reflexivity.
    - subst v. reflexivity.
    - injection H2d as -> ->. reflexivity. }
  rewrite Hsum. cbn [obind arr_map map flatten ravel concat app].
  unfold spec_objective, flatten. cbn [ravel concat app].
  do 3 f_equal. lra.
Qed.

End ObjectiveValue.

(** X14.  With a non-negative accumulator and a non-negative
    [beta + phi . S . phi^T], the objective at a point is at most minus the
    predicted mean [phi . m] there (the score that [select_optimal]
    maximises is at least the predicted mean), with equality when
    [beta + phi . S . phi^T] is zero. *)
Theorem objective_at_most_minus_mean {ext : Externals} (ag : SSPAgent ext)
    (x phi mv : list R) (K : nat) (Srows : list (list R)) :
  encode ag (reshape_1_infer (Arr1 x)) = Some (Arr2 K [phi]) ->
  blr_m (blr ag) = Arr1 mv \/ blr_m (blr ag) = Arr2 1 (map (fun v => [v]) mv) ->
  length mv = K ->
  blr_S (blr ag) = Arr2 K Srows ->
  length Srows = K ->
  Forall (fun r => length r = K) Srows ->
  0 <= gamma_t ag ->
  0 <= blr_beta (blr ag) + dot phi (map (fun row => dot row phi) Srows) ->
  exists v,
    objective ag x = Some (Arr1 [v]) /\
    v <= - dot phi mv /\
    (blr_beta (blr ag) + dot phi (map (fun row => dot row phi) Srows) = 0 ->
     v = - dot phi mv).
Proof.
  intros Henc Hm Hmv HS HSl HSr Hg Hq.
  unfold objective. rewrite HS.
  rewrite (optim_func_value ag _ _ _ x phi mv K Srows Henc Hm Hmv HSl HSr).
  eexists. split; [reflexivity | ].
  unfold spec_objective.
  set (q := dot phi (map (fun row => dot row phi) Srows)) in *.
  split.
  - assert (sqrt (gamma_t ag) <= sqrt (gamma_t ag + blr_beta (blr ag) + q))
      by (apply sqrt_le_1; lra).
    lra.
  - intros H0.
    replace (gamma_t ag + blr_beta (blr ag) + q) with (gamma_t ag) by lra.
    lra.
Qed.

Lemma objective_at_most_minus_mean_witness :
  exists v,
    @objective Demo.ext Demo.agent0 [1] = Some (Arr1 [v]) /\
    v <= - dot [1 / Rabs (4 * 1) * 1; 1 / Rabs (4 * 1) * 1] [0; 0].
Proof.
  destruct (@objective_at_most_minus_mean Demo.ext Demo.agent0 [1]
              [1 / Rabs (4 * 1) * 1; 1 / Rabs (4 * 1) * 1] [0; 0] 2
              [[0; 0]; [0; 0]])
    as (v & Hv & Hle & _).
  - reflexivity.
  - right. reflexivity.
  - reflexivity.
  - reflexivity.
  - reflexivity.
  - repeat constructor.
  - cbn. lra.
  - cbn. unfold dot. cbn. lra.
  - exists v. split; assumption.
Defined.

Lemma bdim_1_l (n : nat) : bdim 1 n = Some n.
Proof.
  unfold bdim. destruct (Nat.eqb_spec 1 n) as [<- | _]; reflexivity.
Qed.

Lemma bdim_1_r (n : nat) : bdim n 1 = Some n.
Proof.
  unfold bdim. destruct (Nat.eqb_spec n 1) as [-> | _]; reflexivity.
Qed.

(** X15.  [gradient], were it passed to the minimiser, would not return
    one entry per coordinate of [x]: at a point whose encoding has
    [ssp_dim = K] entries, with a mean of [K] entries and a covariance of
    [K] rows, it returns a 2-d array of [K] rows of [K] entries. *)
Theorem gradient_is_square {ext : Externals} (ag : SSPAgent ext)
    (m : ndarray) (gamma beta_inv : R) (x phi : list R) (K : nat)
    (Srows : list (list R)) :
  encode ag (reshape_1_infer (Arr1 x)) = Some (Arr2 K [phi]) ->
  length (ravel m) = K ->
  length Srows = K ->
  exists rows,
    gradient ag m (Arr2 K Srows) gamma beta_inv x = Some (Arr2 K rows) /\
    length rows = K /\
    Forall (fun r => length r = K) rows.
Proof.
  intros Henc Hm HSl.
  unfold gradient. rewrite Henc. cbn [obind].
  cbn [matmul transpose length]. rewrite HSl, Nat.eqb_refl. cbn [obind map].
  assert (Hc : length (columns K [phi]) = K)
    by (unfold columns; now rewrite length_map, length_seq).
  cbn [matmul]. rewrite Hc, Nat.eqb_refl. cbn [obind map arr_map].
  unfold columns at 1 3. cbn [seq map].
  cbn [arr_binop atleast_2d flatten length].
  rewrite length_map, HSl, bdim_1_r. cbn [obind bdim Nat.eqb atleast_2d].
  rewrite length_map, length_seq, Hm, bdim_1_l, bdim_1_r. cbn [obind arr_map].
  eexists. split; [reflexivity | ].
  rewrite !length_map, length_seq. split; [reflexivity | ].
  rewrite Forall_map. apply Forall_map, Forall_forall. intros i _.
  now rewrite !length_map, length_seq.
Qed.

Lemma gradient_is_square_witness :
  exists rows,
    @gradient Demo.ext Demo.agent0 (Arr2 1 [[0]; [0]])
              (Arr2 2 [[0; 0]; [0; 0]]) 0 1 [1] = Some (Arr2 2 rows) /\
    length rows = 2%nat /\
    Forall (fun r => length r = 2%nat) rows.
Proof.
  apply (@gradient_is_square Demo.ext Demo.agent0 (Arr2 1 [[0]; [0]]) 0 1
           [1] [1 / Rabs (4 * 1) * 1; 1 / Rabs (4 * 1) * 1] 2
           [[0; 0]; [0; 0]]); reflexivity.
Defined.

(** ** [update]: what it keeps and what it refuses *)

(** X16.  [update] does not touch the cache of [eval] nor the generator:
    after it, [eval] still predicts at the encoding cached before it, now
    with the updated posterior. *)
Theorem update_keeps_eval_cache {ext : Externals} (x : ndarray) (y : pyobj)
    (s : R) (w w' : world ext) (ph : ndarray) :
  update x y s w = Some w' ->
  phis (self w) = Some ph ->
  phis (self w') = Some ph /\
  np_random w' = np_random w /\
  forall xs,
    eval xs w' =
      ('(mu, var) <- blr_predict (blr (self w')) ph ;;
       Some (mu, var,
             exploration_bonus (sqrt_alpha (self w'))
                               (gamma_t (self w) + s) var,
             w')).
Proof.
  intros H Hph. apply update_inv in H as [b ->]. cbn.
  split; [exact Hph | split; [reflexivity | ]].
  intros xs. unfold eval. cbn. rewrite Hph. cbn [obind].
  destruct (blr_predict b ph) as [[mu var] |]; [ | reflexivity].
  cbn. unfold set_phis, set_gamma_t, set_blr. cbn. rewrite Hph.
  reflexivity.
Qed.

Lemma demo_eval_then_update :
  exists out w1 w2,
    @eval Demo.ext (Arr2 1 [[1]]) Demo.world0 = Some (out, w1) /\
    phis (self w1) =
      Some (Arr2 2 [[1 / Rabs (4 * 1) * 1; 1 / Rabs (4 * 1) * 1]]) /\
    @update Demo.ext (Arr1 [3]) (PyArray (Arr1 [1])) 0.5 w1 = Some w2.
Proof. do 3 eexists. repeat split; reflexivity. Qed.

Lemma update_keeps_eval_cache_witness :
  exists out w1 w2,
    @eval Demo.ext (Arr2 1 [[1]]) Demo.world0 = Some (out, w1) /\
    @update Demo.ext (Arr1 [3]) (PyArray (Arr1 [1])) 0.5 w1 = Some w2 /\
    phis (self w2) =
      Some (Arr2 2 [[1 / Rabs (4 * 1) * 1; 1 / Rabs (4 * 1) * 1]]).
Proof.
  destruct demo_eval_then_update as (out & w1 & w2 & He & Hc & Hu).
  exists out, w1, w2. split; [exact He | split; [exact Hu | ]].
  exact (proj1 (@update_keeps_eval_cache Demo.ext _ _ _ _ _ _ Hu Hc)).
Defined.

(** X17.  [update] raises on a 0-d [x_t]; on a 1-d [x_t] with fewer
    entries than there are pointers; and on a 1-d [x_t] with a 2-d [y_t] of
    at least one row whose rows have a number of entries other than 1. *)
Theorem update_rejected_inputs {ext : Externals} (y : pyobj) (s : R)
    (w : world ext) :
  (forall r, update (Arr0 r) y s w = None) /\
  (forall v cp ps,
      ptrs (self w) = Arr2 cp ps -> (length v < length ps)%nat ->
      update (Arr1 v) y s w = None) /\
  (forall v c row rows,
      y = PyArray (Arr2 c (row :: rows)) ->
      Forall (fun r => length r = c) (row :: rows) -> c <> 1%nat ->
      update (Arr1 v) y s w = None).
Proof.
  split; [ | split].
  - intros r. reflexivity.
  - intros v cp ps HP Hlen. unfold update.
    cbn [shape length Nat.ltb Nat.leb nth_error obind].
    unfold reshape_1 at 1. cbn [ravel]. rewrite Nat.eqb_refl. cbn [obind].
    destruct (reshape_target y) as [yv |]; [cbn [obind] | reflexivity].
    unfold encode, _encode. rewrite HP.
    destruct (ssp_dim (self w) <? 0)%Z; [reflexivity | ].
    cbn [encode_rows].
    rewrite (encode_factors_short ps v (length_scale (self w)));
      [reflexivity | now left].
  - intros v c row rows -> Hrows Hc. unfold update.
    cbn [shape length Nat.ltb Nat.leb nth_error obind].
    unfold reshape_1 at 1. cbn [ravel]. rewrite Nat.eqb_refl. cbn [obind].
    assert (Hsize : forall l, Forall (fun r : list R => length r = c) l ->
                              length (concat l) = (length l * c)%nat).
    { induction 1 as [| r l Hr _ IH]; [reflexivity | ].
      cbn. rewrite length_app, IH, Hr. reflexivity. }
    cbn [reshape_target shape nth_error obind]. unfold reshape_1.
    cbn [ravel]. rewrite (Hsize _ Hrows).
    destruct (Nat.eqb_spec (length (row :: rows) * c) (length (row :: rows)))
      as [E | _]; [ | reflexivity].
    exfalso. cbn [length] in E. nia.
Qed.

Lemma update_rejected_inputs_witness :
  @update Demo.ext (Arr0 1) (PyArray (Arr1 [1])) 0.5 Demo.world0 = None /\
  @update Demo.ext (Arr1 []) (PyArray (Arr1 [1])) 0.5 Demo.world0 = None /\
  @update Demo.ext (Arr1 [1]) (PyArray (Arr2 2 [[1; 2]])) 0.5 Demo.world0
    = None.
Proof.
  destruct (@update_rejected_inputs Demo.ext (PyArray (Arr1 [1])) 0.5
              Demo.world0) as (H0 & H1 & _).
  destruct (@update_rejected_inputs Demo.ext (PyArray (Arr2 2 [[1; 2]])) 0.5
              Demo.world0) as (_ & _ & H2).
  split; [apply H0 | split].
  - apply (H1 [] 2%nat [[1; 1]]); [reflexivity | cbn; lia].
  - apply (H2 [1] 2%nat [1; 2] []);
      [reflexivity | repeat constructor | discriminate].
Defined.

(** ** The accumulator since construction *)

Lemma fold_sum_app (l : list R) (s : R) :
  fold_right Rplus 0 (l ++ [s]) = fold_right Rplus 0 l + s.
Proof. induction l as [| a l IH]; cbn; [lra | rewrite IH; lra]. Qed.

(** X18.  Whatever calls of [eval] and [select_optimal] come in between,
    the accumulator of an agent is the sum of the [sigma_t] of the [update]
    calls made on it since it was constructed; it is non-negative when
    these are. *)
Theorem gamma_is_sum_since_construction {ext : Externals} (a : init_args)
    (g : rng_state) (w0 w : world ext) (sigmas : list R) :
  SSPAgent_init a g = Some w0 ->
  runs w0 sigmas w ->
  gamma_t (self w) = fold_right Rplus 0 sigmas /\
  (Forall (fun s => 0 <= s) sigmas -> 0 <= gamma_t (self w)).
Proof.
  intros Hinit Hruns.
  assert (H0 : gamma_t (self w0) = 0).
  { unfold SSPAgent_init in Hinit. destruct (init_xs a); try discriminate.
    bind_inv Hinit. injection Hinit as <-. reflexivity. }
  assert (Hsum : gamma_t (self w) = fold_right Rplus 0 sigmas).
  { clear Hinit. induction Hruns as [w | xs w sigmas w1 [[mu var] phi] w' _ IH H
                       | x y s w sigmas w1 w' _ IH H
                       | bounds w sigmas w1 out w' _ IH H].
    - exact H0.
    - apply eval_inv in H as (ph & _ & _ & _ & ->). exact (IH H0).
    - apply update_inv in H as [b ->]. cbn.
      rewrite fold_sum_app, <- (IH H0). reflexivity.
    - apply select_optimal_self in H. rewrite H. exact (IH H0). }
  split; [exact Hsum | ].
  intros Hs. rewrite Hsum. now apply sum_nonneg.
Qed.

Lemma gamma_is_sum_since_construction_witness :
  exists w,
    @runs Demo.ext Demo.world0 ([] ++ [0.5]) w /\
    gamma_t (self w) = fold_right Rplus 0 ([] ++ [0.5]).
Proof.
  destruct demo_eval_then_update as (out & w1 & w2 & He & _ & Hu).
  exists w2.
  assert (Hr : @runs Demo.ext Demo.world0 ([] ++ [0.5]) w2).
  { eapply runs_update; [ | exact Hu].
    eapply runs_eval; [apply runs_refl | exact He]. }
  split; [exact Hr | ].
  exact (proj1 (@gamma_is_sum_since_construction Demo.ext Demo.args 0%nat
                  Demo.world0 w2 _ eq_refl Hr)).
Defined.

(** ** The constructor *)

(** X19.  A constructor that returns was given a 2-d [init_xs]; it leaves
    an accumulator of 0, an empty cache and a non-negative encoding
    dimension; and the posterior it leaves is a new regression of that
    dimension updated once, with [init_ys] and the encoding of [init_xs]
    that the agent's own [encode] gives, one row of [ssp_dim] entries per
    initial point. *)
Theorem constructor_postconditions {ext : Externals} (a : init_args)
    (g : rng_state) (w : world ext) :
  SSPAgent_init a g = Some w ->
  gamma_t (self w) = 0 /\
  phis (self w) = None /\
  (0 <= ssp_dim (self w))%Z /\
  exists c xrows rows b0,
    init_xs a = Arr2 c xrows /\
    encode (self w) (init_xs a) =
      Some (Arr2 (Z.to_nat (ssp_dim (self w))) rows) /\
    length rows = length xrows /\
    blr_new (ssp_dim (self w)) = Some b0 /\
    blr_update b0 (Arr2 (Z.to_nat (ssp_dim (self w))) rows)
               (PyArray (init_ys a)) = Some (blr (self w)).
Proof.
  unfold SSPAgent_init. intros H.
  destruct (init_xs a) as [? | ? | d xrows] eqn:Hxs; try discriminate H.
  destruct (create_axes a d g) as [[[P K] g'] |]; [ | discriminate H].
  cbn [obind] in H.
  destruct (_optimize_lengthscale K P (Arr2 d xrows) (init_ys a))
    as [ls |]; [ | discriminate H].
  cbn [obind] in H.
  destruct (_encode K P (Arr2 d xrows) ls) as [init_phis |] eqn:Henc;
    [ | discriminate H].
  cbn [obind] in H.
  destruct (blr_new K) as [b0 |] eqn:Hnew; [ | discriminate H].
  cbn [obind] in H.
  destruct (blr_update b0 init_phis (PyArray (init_ys a))) as [b |] eqn:Hup;
    [ | discriminate H].
  injection H as <-. cbn [self gamma_t phis ssp_dim blr].
  pose proof (encode_some_dim_nonneg K P _ ls _ Henc) as HK.
  assert (Hshape : exists rows,
             init_phis = Arr2 (Z.to_nat K) rows /\
             length rows = length xrows).
  { pose proof Henc as Hcopy. unfold _encode in Hcopy.
    destruct P as [? | ? | cp ps]; try discriminate Hcopy.
    destruct (K <? 0)%Z; [discriminate Hcopy | ].
    destruct (encode_rows (Z.to_nat K) ps ls xrows) as [rows |] eqn:Hrows;
      [ | discriminate Hcopy].
    injection Hcopy as <-. exists rows. split; [reflexivity | ].
    exact (proj1 (encode_rows_shape _ _ _ _ _ Hrows)). }
  destruct Hshape as (rows & -> & Hlen).
  repeat (split; [reflexivity || assumption | ]).
  exists d, xrows, rows, b0. unfold encode. cbn [self ptrs ssp_dim
    length_scale].
  repeat split; assumption.
Qed.

Lemma constructor_postconditions_witness :
  @SSPAgent_init Demo.ext Demo.args 0%nat = Some Demo.world0 /\
  gamma_t (self Demo.world0) = 0 /\
  (0 <= ssp_dim (self Demo.world0))%Z.
Proof.
  split; [reflexivity | ].
  destruct (@constructor_postconditions Demo.ext Demo.args 0%nat Demo.world0
              eq_refl) as (Hg & _ & HK & _).
  split; [exact Hg | exact HK].
Defined.

(** X20.  For the hexagonal variant with both counts at 8, an [axis_dim]
    of 0 or less makes the constructor raise: the count would be the
    integer part of a NaN. *)
Theorem constructor_rejects_nonpositive_axis_dim {ext : Externals}
    (a : init_args) (g : rng_state) :
  axis_type a = "hex"%string ->
  n_rotates a = 8%Z ->
  n_scales a = 8%Z ->
  (axis_dim a <= 0)%Z ->
  hex_counts a = None /\ SSPAgent_init a g = None.
Proof.
  intros Hhex Hrot Hsc Hd.
  assert (Hc : hex_counts a = None).
  { unfold hex_counts, backsolve_count. rewrite Hrot, Hsc.
    cbn [Z.eqb Pos.eqb andb].
    destruct (Z.eqb_spec (axis_dim a) 385) as [E | _]; [lia | ].
    cbn [negb].
    destruct (Z.ltb_spec (axis_dim a - 1) 0) as [_ | ?]; [reflexivity | lia]. }
  split; [exact Hc | ].
  unfold SSPAgent_init, create_axes. rewrite Hhex, Hc. cbn.
  destruct (init_xs a); reflexivity.
Qed.

Lemma constructor_rejects_nonpositive_axis_dim_witness :
  @SSPAgent_init Demo.ext
    (mkArgs (Arr2 1 [[1]]) (Arr1 [1]) "hex" 0 8 8 3 4) 0%nat = None.
Proof.
  apply (@constructor_rejects_nonpositive_axis_dim Demo.ext
           (mkArgs (Arr2 1 [[1]]) (Arr1 [1]) "hex" 0 8 8 3 4) 0%nat);
    [reflexivity | reflexivity | reflexivity | cbn; lia].
Defined.

(** X21.  When one of the two counts differs from 8, the hexagonal basis is
    generated with the counts as given, and [axis_dim] plays no part. *)
Theorem explicit_counts_are_kept {ext : Externals} (a : init_args)
    (data_dim : nat) (g : rng_state) :
  axis_type a = "hex"%string ->
  n_rotates a <> 8%Z \/ n_scales a <> 8%Z ->
  hex_counts a = Some (n_rotates a, n_scales a) /\
  create_axes a data_dim g =
    hex_axes a data_dim (n_rotates a, n_scales a) g /\
  forall d,
    create_axes (mkArgs (init_xs a) (init_ys a) (axis_type a) d
                        (n_scales a) (n_rotates a) (scale_min a)
                        (scale_max a)) data_dim g =
    create_axes a data_dim g.
Proof.
  intros Hhex Hne.
  assert (Hc : forall d,
             hex_counts (mkArgs (init_xs a) (init_ys a) (axis_type a) d
                                (n_scales a) (n_rotates a) (scale_min a)
                                (scale_max a)) =
             Some (n_rotates a, n_scales a)).
  { intros d. unfold hex_counts. cbn.
    destruct Hne as [Hr | Hs].
    - destruct (Z.eqb_spec (n_rotates a) 8); [congruence | reflexivity].
    - destruct (Z.eqb_spec (n_scales a) 8); [congruence | ].
      now rewrite andb_false_r. }
  assert (Hca : hex_counts a = Some (n_rotates a, n_scales a)).
  { rewrite <- (Hc (axis_dim a)). now destruct a. }
  split; [exact Hca | split].
  - unfold create_axes. now rewrite Hhex, Hca.
  - intros d. unfold create_axes. cbn [axis_type]. rewrite Hc, Hca, Hhex.
    reflexivity.
Qed.

Lemma explicit_counts_are_kept_witness :
  hex_counts (mkArgs (Arr2 1 [[1]]) (Arr1 [1]) "hex" 151 3 8 3 4)
    = Some (8%Z, 3%Z).
Proof.
  apply (@explicit_counts_are_kept Demo.ext
           (mkArgs (Arr2 1 [[1]]) (Arr1 [1]) "hex" 151 3 8 3 4) 1%nat 0%nat).
  - reflexivity.
  - right. cbn. discriminate.
Defined.

(** X22.  Up to [10^15] the back-solved count is the largest [k] with
    [6 k^2 + 1 <= axis_dim]: for [1 <= axis_dim <= 10^15] it is a
    non-negative [k] with [6 k^2 + 1 <= axis_dim < 6 (k+1)^2 + 1], so that
    asking for the dimension [6 n^2 + 1] gives back [n]. *)
Theorem backsolve_count_bounds (d : Z) :
  (1 <= d <= 10 ^ 15)%Z ->
  exists k,
    backsolve_count d = Some k /\
    (0 <= k)%Z /\
    (6 * k * k + 1 <= d < 6 * (k + 1) * (k + 1) + 1)%Z /\
    forall n, (0 <= n)%Z -> d = (6 * n * n + 1)%Z -> k = n.
Proof.
  intros Hd. exists (Z.sqrt ((d - 1) / 6)).
  rewrite (backsolve_count_isqrt d Hd).
  set (q := ((d - 1) / 6)%Z).
  assert (Hq0 : (0 <= q)%Z) by (apply Z.div_pos; lia).
  assert (Hq1 : (6 * q <= d - 1)%Z) by (apply Z.mul_div_le; lia).
  assert (Hq2 : (d - 1 < 6 * q + 6)%Z).
  { pose proof (Z.mul_succ_div_gt (d - 1) 6 ltac:(lia)) as H.
    fold q in H. lia. }
  destruct (Z.sqrt_spec q Hq0) as [Hlo Hhi].
  split; [reflexivity | ].
  split; [apply Z.sqrt_nonneg | ].
  split; [nia | ].
  intros n Hn Hdn.
  assert (Hqn : q = (n * n)%Z).
  { unfold q. rewrite Hdn.
    replace (6 * n * n + 1 - 1)%Z with (n * n * 6)%Z by lia.
    apply Z.div_mul. lia. }
  rewrite Hqn. apply Z.sqrt_square. exact Hn.
Qed.

Lemma backsolve_count_bounds_witness :
  exists k,
    backsolve_count 385 = Some k /\
    (6 * k * k + 1 <= 385 < 6 * (k + 1) * (k + 1) + 1)%Z /\
    k = 8%Z.
Proof.
  destruct (backsolve_count_bounds 385 ltac:(lia))
    as (k & Hk & _ & Hb & Hn).
  exists k. split; [exact Hk | split; [exact Hb | ]].
  apply Hn; lia.
Defined.

(** X23.  For any variant other than the hexagonal one, a constructor that
    returns has taken the requested [axis_dim] as the encoding dimension,
    and that [axis_dim] is not negative. *)
Theorem random_variant_dimension {ext : Externals} (a : init_args)
    (g : rng_state) (w : world ext) :
  axis_type a <> "hex"%string ->
  SSPAgent_init a g = Some w ->
  ssp_dim (self w) = axis_dim a /\ (0 <= axis_dim a)%Z.
Proof.
  intros Hne H. unfold SSPAgent_init in H.
  destruct (init_xs a) as [? | ? | d xrows]; try discriminate H.
  unfold create_axes in H.
  destruct (String.eqb_spec (axis_type a) "hex") as [E | _];
    [congruence | ].
  destruct (ssp_RandomBasis g d (axis_dim a)) as [[ps g'] |];
    [ | discriminate H].
  cbn [obind] in H.
  destruct (np_vstack ps) as [stacked |]; [ | discriminate H].
  cbn [obind] in H.
  destruct (_optimize_lengthscale (axis_dim a) stacked (Arr2 d xrows)
                                  (init_ys a)) as [ls |];
    [ | discriminate H].
  cbn [obind] in H.
  destruct (_encode (axis_dim a) stacked (Arr2 d xrows) ls)
    as [init_phis |] eqn:Henc; [ | discriminate H].
  cbn [obind] in H. bind_inv H. injection H as <-.
  split; [reflexivity | ].
  exact (encode_some_dim_nonneg _ _ _ _ _ Henc).
Qed.

Lemma demo_random_construction :
  exists w,
    @SSPAgent_init Demo.ext
      (mkArgs (Arr2 1 [[1]]) (Arr1 [1]) "random" 2 8 8 3 4) 0%nat = Some w.
Proof. eexists. reflexivity. Qed.

Lemma random_variant_dimension_witness :
  exists w,
    @SSPAgent_init Demo.ext
      (mkArgs (Arr2 1 [[1]]) (Arr1 [1]) "random" 2 8 8 3 4) 0%nat = Some w /\
    ssp_dim (self w) = 2%Z.
Proof.
  destruct demo_random_construction as [w Hw].
  exists w. split; [exact Hw | ].
  refine (proj1 (@random_variant_dimension Demo.ext _ 0%nat w _ Hw)).
  cbn. discriminate.
Defined.

(** ** The length-scale fit *)

Lemma map_Rabs_idem (l : list R) : map Rabs (map Rabs l) = map Rabs l.
Proof.
  rewrite map_map. apply map_ext. intros x. apply Rabs_Rabsolu.
Qed.

(** X24.  The loss of the fit depends on a length scale only through the
    absolute values of its entries; so the length scale that the
    constructor stores, the absolute value of the point returned by the
    fit, has the loss of that point. *)
Theorem fit_loss_is_even {ext : Externals} (a : init_args) (g : rng_state)
    (w : world ext) :
  SSPAgent_init a g = Some w ->
  (forall K P l l',
      map Rabs l = map Rabs l' ->
      min_func K P (init_xs a) (init_ys a) l =
      min_func K P (init_xs a) (init_ys a) l') /\
  exists data_dim retval,
    nth_error (shape (init_xs a)) 1 = Some data_dim /\
    scipy_minimize
      (min_func (ssp_dim (self w)) (ptrs (self w)) (init_xs a) (init_ys a))
      (map (Rmult 4) (repeat 1 data_dim)) None = Some retval /\
    min_func (ssp_dim (self w)) (ptrs (self w)) (init_xs a) (init_ys a)
             (length_scale (self w)) =
    min_func (ssp_dim (self w)) (ptrs (self w)) (init_xs a) (init_ys a)
             (res_x retval).
Proof.
  intros H.
  assert (Heven : forall K P l l',
             map Rabs l = map Rabs l' ->
             min_func K P (init_xs a) (init_ys a) l =
             min_func K P (init_xs a) (init_ys a) l').
  { intros K P l l' Hl. unfold min_func. now rewrite Hl. }
  split; [exact Heven | ].
  unfold SSPAgent_init in H.
  destruct (init_xs a) as [? | ? | d rows] eqn:Hxs; try discriminate H.
  destruct (create_axes a d g) as [[[P K] g'] |]; [ | discriminate H].
  cbn [obind] in H.
  destruct (_optimize_lengthscale K P (Arr2 d rows) (init_ys a))
    as [ls |] eqn:Hls; [ | discriminate H].
  cbn [obind] in H. bind_inv H. injection H as <-.
  cbn [self length_scale ssp_dim ptrs].
  unfold _optimize_lengthscale in Hls. cbn [shape nth_error obind] in Hls.
  destruct (scipy_minimize _ _ None) as [retval |] eqn:Hmin;
    [ | discriminate Hls].
  injection Hls as <-.
  exists d, retval.
  split; [reflexivity | split; [exact Hmin | ]].
  apply Heven. apply map_Rabs_idem.
Qed.

Lemma fit_loss_is_even_witness :
  @SSPAgent_init Demo.ext Demo.args 0%nat = Some Demo.world0 /\
  @min_func Demo.ext 2 (Arr2 2 [[1; 1]]) (Arr2 1 [[1]]) (Arr1 [1]) [-3] =
  @min_func Demo.ext 2 (Arr2 2 [[1; 1]]) (Arr2 1 [[1]]) (Arr1 [1]) [3].
Proof.
  split; [reflexivity | ].
  refine (proj1 (@fit_loss_is_even Demo.ext Demo.args 0%nat Demo.world0
                   eq_refl) 2%Z (Arr2 2 [[1; 1]]) [-3] [3] _).
  cbn. f_equal. rewrite Rabs_left by lra. rewrite Rabs_right by lra. lra.
Defined.

Lemma Forall_Rabs_nonneg (l : list R) : Forall (fun v => 0 <= v) (map Rabs l).
Proof.
  apply Forall_map, Forall_forall. intros v _. apply Rabs_pos.
Qed.

Lemma Forall_Rabs_pos (l : list R) :
  Forall (fun v => v <> 0) l <-> Forall (fun v => 0 < v) (map Rabs l).
Proof.
  rewrite Forall_map. split; intros H; eapply Forall_impl; try exact H;
    cbn; intros v Hv.
  - now apply Rabs_pos_lt.
  - intros ->. rewrite Rabs_R0 in Hv. lra.
Qed.

(** X28.  After construction every entry of the length scale is
    non-negative: the length scale is the component-wise absolute value of
    the point that the unconstrained fit, started from the constant 4,
    returned; its entries are all strictly positive exactly when no entry
    of that point is zero. *)
Theorem length_scale_nonnegative {ext : Externals} (a : init_args)
    (g : rng_state) (w : world ext) :
  SSPAgent_init a g = Some w ->
  Forall (fun l => 0 <= l) (length_scale (self w)) /\
  exists data_dim retval,
    nth_error (shape (init_xs a)) 1 = Some data_dim /\
    scipy_minimize
      (min_func (ssp_dim (self w)) (ptrs (self w)) (init_xs a) (init_ys a))
      (map (Rmult 4) (repeat 1 data_dim)) None = Some retval /\
    length_scale (self w) = map Rabs (res_x retval) /\
    (Forall (fun r => r <> 0) (res_x retval) <->
     Forall (fun l => 0 < l) (length_scale (self w))).
Proof.
  unfold SSPAgent_init. intros H.
  destruct (init_xs a) as [? | ? | d rows] eqn:Hxs; try discriminate H.
  destruct (create_axes a d g) as [[[P K] g'] |]; [ | discriminate H].
  cbn [obind] in H.
  destruct (_optimize_lengthscale K P (Arr2 d rows) (init_ys a))
    as [ls |] eqn:Hls; [ | discriminate H].
  cbn [obind] in H. bind_inv H. injection H as <-.
  cbn [self length_scale ssp_dim ptrs].
  unfold _optimize_lengthscale in Hls. cbn [shape nth_error obind] in Hls.
  destruct (scipy_minimize _ _ None) as [retval |] eqn:Hmin;
    [ | discriminate Hls].
  injection Hls as <-.
  split; [apply Forall_Rabs_nonneg | ].
  exists d, retval.
  split; [reflexivity | ].
  split; [exact Hmin | ].
  split; [reflexivity | apply Forall_Rabs_pos].
Qed.

Lemma length_scale_nonnegative_witness :
  @SSPAgent_init Demo.ext Demo.args 0%nat = Some Demo.world0 /\
  Forall (fun l => 0 <= l) (length_scale (self Demo.world0)).
Proof.
  split; [reflexivity | ].
  exact (proj1 (@length_scale_nonnegative Demo.ext Demo.args 0%nat
                  Demo.world0 eq_refl)).
Defined.

(** ** The target of the trajectory experiment *)

Lemma target_closed_form (x : ndarray) (a1 a2 b1 b2 c1 c2 : R) :
  ravel x = [a1; a2; b1; b2; c1; c2] ->
  Experiment.target x =
    Some (sqrt (a1 ^ 2 + a2 ^ 2)
          + sqrt ((b1 - 5) ^ 2 + (b2 + 3) ^ 2)
          + sqrt ((c1 - 6) ^ 2 + (c2 - 7) ^ 2)).
Proof.
  intros Hx. unfold Experiment.target, Experiment.reshape_2.
  rewrite Hx. cbn. f_equal.
  match goal with
  | |- sqrt ?a + (sqrt ?b + (sqrt ?c + 0)) = sqrt ?a' + sqrt ?b' + sqrt ?c' =>
      replace a with a' by (lra || nra);
      replace b with b' by (lra || nra);
      replace c with c' by (lra || nra)
  end.
  lra.
Qed.

Lemma length_6_inv (l : list R) :
  length l = 6%nat ->
  exists a1 a2 b1 b2 c1 c2, l = [a1; a2; b1; b2; c1; c2].
Proof.
  intros H.
  do 6 (destruct l as [| ? l]; [discriminate H | ]).
  destruct l; [ | discriminate H].
  do 6 eexists. reflexivity.
Qed.

Lemma sum_sq_zero (u v : R) : u ^ 2 + v ^ 2 = 0 -> u = 0 /\ v = 0.
Proof. intros H. split; nra. Qed.

Lemma sqrt_sum_sq_nonneg (u v : R) : 0 <= u ^ 2 + v ^ 2.
Proof. nra. Qed.

Lemma target_undefined (x : ndarray) :
  length (ravel x) <> 6%nat -> Experiment.target x = None.
Proof.
  intros Hne. unfold Experiment.target, Experiment.reshape_2.
  change (Experiment.traj_len * Experiment.pt_dim)%nat with 6%nat.
  destruct (Nat.eqb_spec (length (ravel x)) 6); [congruence | reflexivity].
Qed.

(** X25.  [target] raises unless its argument has exactly 6 elements, of
    whatever shape; on the 6 elements [a1, a2, b1, b2, c1, c2] in row-major
    order it is the sum of the distances from [(a1, a2)] to [(0, 0)], from
    [(b1, b2)] to [(5, -3)] and from [(c1, c2)] to [(6, 7)]. *)
Theorem target_value (x : ndarray) :
  (length (ravel x) <> 6%nat -> Experiment.target x = None) /\
  (forall a1 a2 b1 b2 c1 c2,
      ravel x = [a1; a2; b1; b2; c1; c2] ->
      Experiment.target x =
        Some (sqrt (a1 ^ 2 + a2 ^ 2)
              + sqrt ((b1 - 5) ^ 2 + (b2 + 3) ^ 2)
              + sqrt ((c1 - 6) ^ 2 + (c2 - 7) ^ 2))).
Proof.
  split.
  - apply target_undefined.
  - intros. now apply target_closed_form.
Qed.

Lemma target_value_witness :
  Experiment.target (Arr1 [1; 2; 3]) = None /\
  Experiment.target (Arr2 3 [[3; 4; 5]; [-3; 6; 7]]) =
    Some (sqrt (3 ^ 2 + 4 ^ 2)
          + sqrt ((5 - 5) ^ 2 + (-3 + 3) ^ 2)
          + sqrt ((6 - 6) ^ 2 + (7 - 7) ^ 2)).
Proof.
  split.
  - apply (proj1 (target_value (Arr1 [1; 2; 3]))). cbn. lia.
  - apply (proj2 (target_value (Arr2 3 [[3; 4; 5]; [-3; 6; 7]]))).
    reflexivity.
Defined.

(** A value of [target] comes from 6 elements by the closed form. *)
Lemma target_some_inv (x : ndarray) (v : R) :
  Experiment.target x = Some v ->
  exists a1 a2 b1 b2 c1 c2,
    ravel x = [a1; a2; b1; b2; c1; c2] /\
    v = sqrt (a1 ^ 2 + a2 ^ 2)
        + sqrt ((b1 - 5) ^ 2 + (b2 + 3) ^ 2)
        + sqrt ((c1 - 6) ^ 2 + (c2 - 7) ^ 2).
Proof.
  intros H.
  assert (Hlen : length (ravel x) = 6%nat).
  { destruct (Nat.eq_dec (length (ravel x)) 6) as [E | Hne]; [exact E | ].
    rewrite (target_undefined x Hne) in H. discriminate H. }
  destruct (length_6_inv _ Hlen) as (a1 & a2 & b1 & b2 & c1 & c2 & Hx).
  exists a1, a2, b1, b2, c1, c2. split; [exact Hx | ].
  rewrite (target_closed_form x _ _ _ _ _ _ Hx) in H. congruence.
Qed.

(** A sum of three distances is zero only when each point is at its
    waypoint. *)
Lemma distances_zero (a1 a2 b1 b2 c1 c2 : R) :
  sqrt (a1 ^ 2 + a2 ^ 2)
  + sqrt ((b1 - 5) ^ 2 + (b2 + 3) ^ 2)
  + sqrt ((c1 - 6) ^ 2 + (c2 - 7) ^ 2) = 0 ->
  a1 = 0 /\ a2 = 0 /\ b1 = 5 /\ b2 = -3 /\ c1 = 6 /\ c2 = 7.
Proof.
  intros H0.
  pose proof (sqrt_pos (a1 ^ 2 + a2 ^ 2)) as H1.
  pose proof (sqrt_pos ((b1 - 5) ^ 2 + (b2 + 3) ^ 2)) as H2.
  pose proof (sqrt_pos ((c1 - 6) ^ 2 + (c2 - 7) ^ 2)) as H3.
  assert (E1 : sqrt (a1 ^ 2 + a2 ^ 2) = 0) by lra.
  assert (E2 : sqrt ((b1 - 5) ^ 2 + (b2 + 3) ^ 2) = 0) by lra.
  assert (E3 : sqrt ((c1 - 6) ^ 2 + (c2 - 7) ^ 2) = 0) by lra.
  apply sqrt_eq_0 in E1; [ | apply sqrt_sum_sq_nonneg].
  apply sqrt_eq_0 in E2; [ | apply sqrt_sum_sq_nonneg].
  apply sqrt_eq_0 in E3; [ | apply sqrt_sum_sq_nonneg].
  apply sum_sq_zero in E1 as [? ?].
  apply sum_sq_zero in E2 as [? ?].
  apply sum_sq_zero in E3 as [? ?].
  repeat split; lra.
Qed.

(** X26.  Where it is defined [target] is non-negative, and it is zero at
    exactly one point: the waypoints [0, 0, 5, -3, 6, 7], the elements of
    [xstar]. *)
Theorem target_minimum (x : ndarray) (v : R) :
  Experiment.target x = Some v ->
  0 <= v /\ (v = 0 <-> ravel x = ravel Experiment.xstar).
Proof.
  intros H.
  destruct (target_some_inv x v H)
    as (a1 & a2 & b1 & b2 & c1 & c2 & Hx & ->).
  pose proof (sqrt_pos (a1 ^ 2 + a2 ^ 2)) as H1.
  pose proof (sqrt_pos ((b1 - 5) ^ 2 + (b2 + 3) ^ 2)) as H2.
  pose proof (sqrt_pos ((c1 - 6) ^ 2 + (c2 - 7) ^ 2)) as H3.
  split; [lra | ].
  rewrite Hx. cbn [Experiment.xstar arr_map ravel map concat app].
  split.
  - intros H0.
    destruct (distances_zero _ _ _ _ _ _ H0)
      as (-> & -> & -> & -> & -> & ->).
    repeat f_equal; lra.
  - intros E. injection E as -> -> -> -> -> ->.
    replace ((0 * 10) ^ 2 + (0 * 10) ^ 2) with 0 by (lra || nra).
    replace ((0.5 * 10 - 5) ^ 2 + (-0.3 * 10 + 3) ^ 2) with 0 by (lra || nra).
    replace ((0.6 * 10 - 6) ^ 2 + (0.7 * 10 - 7) ^ 2) with 0 by (lra || nra).
    rewrite sqrt_0. lra.
Qed.

Lemma target_minimum_witness :
  exists v,
    Experiment.target (Arr1 [0; 0; 5; -3; 6; 7]) = Some v /\ 0 <= v /\ v = 0.
Proof.
  pose proof (target_closed_form (Arr1 [0; 0; 5; -3; 6; 7]) 0 0 5 (-3) 6 7
                eq_refl) as E.
  eexists. split; [exact E | ].
  destruct (target_minimum _ _ E) as [Hn Hz].
  split; [exact Hn | ].
  apply Hz. cbn. repeat f_equal; lra.
Defined.

(** X27.  The search box of the experiment has [data_dim = 6] rows
    [(-10, 10)], and every point at which [target] is zero lies inside
    it. *)
Theorem experiment_box_contains_optimum (x : ndarray) :
  Experiment.target x = Some 0 ->
  exists rows pairs,
    Experiment.bounds = Some (Arr2 2 rows) /\
    Experiment.bound_pairs rows = Some pairs /\
    length pairs = Experiment.data_dim /\
    Forall (fun b => fst b = -10 /\ snd b = 10) pairs /\
    in_box pairs (ravel x).
Proof.
  intros H.
  destruct (target_some_inv x 0 H)
    as (a1 & a2 & b1 & b2 & c1 & c2 & Hx & H0).
  symmetry in H0.
  destruct (distances_zero _ _ _ _ _ _ H0) as (-> & -> & -> & -> & -> & ->).
  rewrite Hx.
  do 2 eexists. split; [reflexivity | ].
  split; [reflexivity | ].
  split; [reflexivity | ].
  split.
  - repeat constructor; cbn; lra.
  - unfold in_box. cbn. repeat constructor; cbn; lra.
Qed.

Lemma experiment_box_contains_optimum_witness :
  Experiment.target (Arr1 [0; 0; 5; -3; 6; 7]) = Some 0 /\
  exists rows pairs,
    Experiment.bounds = Some (Arr2 2 rows) /\
    Experiment.bound_pairs rows = Some pairs /\
    in_box pairs [0; 0; 5; -3; 6; 7].
Proof.
  assert (E : Experiment.target (Arr1 [0; 0; 5; -3; 6; 7]) = Some 0).
  { pose proof (target_closed_form (Arr1 [0; 0; 5; -3; 6; 7]) 0 0 5 (-3) 6 7
                  eq_refl) as Hv.
    rewrite Hv. f_equal.
    replace (0 ^ 2 + 0 ^ 2) with 0 by (lra || nra).
    replace ((5 - 5) ^ 2 + (-3 + 3) ^ 2) with 0 by (lra || nra).
    replace ((6 - 6) ^ 2 + (7 - 7) ^ 2) with 0 by (lra || nra).
    rewrite sqrt_0. lra. }
  split; [exact E | ].
  destruct (experiment_box_contains_optimum _ E)
    as (rows & pairs & Hb & Hp & _ & _ & Hin).
  exists rows, pairs. split; [exact Hb | split; [exact Hp | exact Hin]].
Defined.
